(** * Viseme timelines of [backend/app.py]: the [VisemeMapper] class

    A shallow embedding of [VisemeMapper] and the properties of its three
    methods, [phoneme_to_viseme], [generate_viseme_sequence] and
    [_word_to_visemes].

    Conventions of the embedding.
    - A Python [str] is a [string]; a character [ascii] is read as the code
      point of the same number (U+0000 to U+00FF), and [isspace], [lower],
      [split] and [strip] are Python's on that range.
    - A [dict] is a [gmap]; [d.get(k, v)] is total, [d[k]] raises [KeyError].
    - Code that can raise returns a [result]; the loops that append to a list
      and advance [current_time] thread that state explicitly.
    - The floating-point operations the code uses are the fields of the class
      [Arith]: the methods are written once over it and read at two
      instances, IEEE binary64 ([binary64], what Python's [float] is) and
      exact rationals ([exact]). The properties hold in any arithmetic or
      are stated at [binary64], where rounding is bounded; [exact] shows
      what is left of them without rounding. *)

From Stdlib Require Import ZArith QArith Qfield Floats Uint63 String Ascii List Sorted Lia.
From stdpp Require Import gmap strings.

Local Open Scope string_scope.
Local Open Scope list_scope.
Local Open Scope Z_scope.

(** ** Exceptions *)

Inductive exn : Set :=
| ZeroDivisionError
| KeyError.

Inductive result (A : Type) : Type :=
| Ok (a : A)
| Raise (e : exn).
Arguments Ok {A} a.
Arguments Raise {A} e.

Definition bind {A B} (m : result A) (k : A -> result B) : result B :=
  match m with
  | Ok a => k a
  | Raise e => Raise e
  end.

Notation "'do' x <- m ; k" := (bind m (fun x => k))
  (at level 10, x name, m at level 100, k at level 200).

(** A [for] loop whose body can raise: the loop state goes through the body
    once per element, and the first exception leaves the loop. *)
Fixpoint for_each {A S} (body : S -> A -> result S) (s : S) (l : list A) : result S :=
  match l with
  | [] => Ok s
  | x :: l' => do s' <- body s x; for_each body s' l'
  end.

(** ** Python strings *)

(** [str.isspace] on one character: TAB to CR, FS to US, space, NEL, NBSP. *)
Definition isspace (c : ascii) : bool :=
  let n := Z.of_N (N_of_ascii c) in
  ((9 <=? n) && (n <=? 13)) || ((28 <=? n) && (n <=? 32)) || (n =? 133) || (n =? 160).

(** [str.lower] on one character: A to Z, and the capitals of Latin-1
    (U+00C0 to U+00DE without the multiplication sign U+00D7). *)
Definition lower_char (c : ascii) : ascii :=
  let n := Z.of_N (N_of_ascii c) in
  if ((65 <=? n) && (n <=? 90)) || ((192 <=? n) && (n <=? 222) && negb (n =? 215))
  then ascii_of_N (Z.to_N (n + 32))
  else c.

Fixpoint lower (s : string) : string :=
  match s with
  | EmptyString => EmptyString
  | String c s' => String (lower_char c) (lower s')
  end.

(** [str.split()] with no argument: the maximal runs of characters that are
    not whitespace, in order; [word] is the run being read. *)
Fixpoint split_from (word : string) (s : string) : list string :=
  match s with
  | EmptyString => if decide (word = EmptyString) then [] else [word]
  | String c s' =>
      if isspace c
      then (if decide (word = EmptyString) then [] else [word]) ++ split_from EmptyString s'
      else split_from (word +:+ String c EmptyString) s'
  end.

Definition split (s : string) : list string := split_from EmptyString s.

(** [str.strip()] with no argument. *)
Fixpoint lstrip (s : string) : string :=
  match s with
  | EmptyString => EmptyString
  | String c s' => if isspace c then lstrip s' else s
  end.

Fixpoint rstrip (s : string) : string :=
  match s with
  | EmptyString => EmptyString
  | String c s' =>
      let r := rstrip s' in
      if isspace c && bool_decide (r = EmptyString) then EmptyString else String c r
  end.

Definition strip (s : string) : string := rstrip (lstrip s).

(** Iterating over a [str] yields its characters as strings of length one. *)
Fixpoint chars (s : string) : list string :=
  match s with
  | EmptyString => []
  | String c s' => String c EmptyString :: chars s'
  end.

(** [len] of a list. *)
Definition len {A} (l : list A) : Z := Z.of_nat (length l).

(** ** Python dicts *)

(** A dict display [{k1: v1, k2: v2, ...}]: the items are stored from left to
    right, a later item replacing an earlier one with the same key. *)
Definition dict (items : list (string * Z)) : gmap string Z :=
  fold_left (fun d kv => <[kv.1 := kv.2]> d) items ∅.

(** [d.get(k, v)] *)
Definition get (d : gmap string Z) (k : string) (v : Z) : Z :=
  match d !! k with
  | Some x => x
  | None => v
  end.

(** [k in d] *)
Definition contains (d : gmap string Z) (k : string) : bool :=
  match d !! k with
  | Some _ => true
  | None => false
  end.

(** [d[k]] *)
Definition getitem (d : gmap string Z) (k : string) : result Z :=
  match d !! k with
  | Some x => Ok x
  | None => Raise KeyError
  end.

(** ** Floating-point arithmetic *)

(** What the code does with floats: the literal [0.0], [+], and [/] with an
    [int] on the right, which Python converts to a float first. *)
Class Arith (F : Type) : Type := {
  fzero : F;
  fadd : F -> F -> F;
  fdiv : F -> F -> F;
  of_int : Z -> F
}.

(** [x / n] for a float [x] and an int [n]: division by zero raises. *)
Definition truediv {F} `{Arith F} (x : F) (n : Z) : result F :=
  if n =? 0 then Raise ZeroDivisionError else Ok (fdiv x (of_int n)).

(** IEEE 754 binary64, round to nearest even: Python's [float]. The
    conversion of an int covers the ints below 2^63 in absolute value, far
    beyond any length. *)
Definition float_of_int (n : Z) : float :=
  if n <? 0 then PrimFloat.opp (PrimFloat.of_uint63 (Uint63.of_Z (- n)))
  else PrimFloat.of_uint63 (Uint63.of_Z n).

#[export] Instance binary64 : Arith float := {
  fzero := 0%float;
  fadd := PrimFloat.add;
  fdiv := PrimFloat.div;
  of_int := float_of_int
}.

(** [sys.maxsize]: no [str] and no [list] is longer. *)
Definition sys_maxsize : Z := 2 ^ 63 - 1.

(** Exact arithmetic: the same operations with no rounding. *)
#[export] Instance exact : Arith Q := {
  fzero := 0%Q;
  fadd := Qplus;
  fdiv := Qdiv;
  of_int := inject_Z
}.

(** An order on the numbers that the operations respect on the
    non-negative ones: a non-negative number divided by a length that is
    not zero is not negative, and adding a non-negative number does not go
    down. Exact arithmetic has these laws ([exact_order] below), and so has
    binary64, where they are the monotonicity of rounding
    ([binary64_order]). *)
Class ArithOrder (F : Type) `{Arith F} (fle : F -> F -> Prop) : Prop := {
  fle_trans : forall x y z, fle x y -> fle y z -> fle x z;
  fle_zero : fle fzero fzero;
  fle_div_pos : forall x n,
    fle fzero x -> 0 < n <= sys_maxsize -> fle fzero (fdiv x (of_int n));
  fle_add_nonneg : forall x d, fle fzero x -> fle fzero d -> fle x (fadd x d)
}.

(** ** class VisemeMapper *)

(** One entry of the timeline, the dict
    [{'viseme_id': _, 'time_offset': _, 'duration': _}]. *)
Record Entry (F : Type) : Type := mkEntry {
  viseme_id : Z;
  time_offset : F;
  duration : F
}.
Arguments mkEntry {F} _ _ _.
Arguments viseme_id {F} _.
Arguments time_offset {F} _.
Arguments duration {F} _.

Definition VISEME_MAP : gmap string Z := dict [
  (* Silence/pause *)
  ("sil", 0); ("sp", 0); (EmptyString, 0);
  (* Consonants *)
  ("p", 1); ("b", 1); ("m", 1);
  ("f", 2); ("v", 2);
  ("th", 3); ("dh", 3);
  ("t", 4); ("d", 4); ("n", 4); ("l", 4); ("s", 4); ("z", 4);
  ("sh", 5); ("zh", 5); ("ch", 5); ("jh", 5); ("r", 5);
  ("k", 6); ("g", 6); ("ng", 6); ("y", 6); ("w", 6);
  ("h", 7);
  (* Vowels *)
  ("aa", 8); ("ao", 8);
  ("ae", 9); ("ah", 9);
  ("eh", 10); ("er", 10);
  ("ih", 11); ("iy", 11);
  ("ow", 12); ("oo", 12); ("uh", 12); ("uw", 12);
  ("ay", 13); ("ey", 13);
  ("oy", 14); ("aw", 14)
].

(** [__init__]: [self.viseme_count = 15] *)
Definition viseme_count : Z := 15.

Definition phoneme_to_viseme (phoneme : string) : Z :=
  let phoneme := strip (lower phoneme) in
  get VISEME_MAP phoneme 0.

(** The table local to [_word_to_visemes]. *)
Definition letter_to_viseme : gmap string Z := dict [
  ("a", 8); ("e", 10); ("i", 11); ("o", 12); ("u", 12);
  ("p", 1); ("b", 1); ("m", 1);
  ("f", 2); ("v", 2);
  ("t", 4); ("d", 4); ("n", 4); ("l", 4); ("s", 4);
  ("r", 5); ("ch", 5); ("sh", 5);
  ("k", 6); ("g", 6); ("w", 6); ("y", 6);
  ("h", 7)
].

(** The body of [for char in word], on the list [visemes] built so far. *)
Definition _word_to_visemes_char (visemes : list Z) (char : string) : result (list Z) :=
  if contains letter_to_viseme char
  then do v <- getitem letter_to_viseme char; Ok (visemes ++ [v])
  else Ok (visemes ++ [0]).

Definition _word_to_visemes (word : string) : result (list Z) :=
  let visemes := [] in
  do visemes <- for_each _word_to_visemes_char visemes (chars word);
  Ok (match visemes with [] => [0] | _ => visemes end).

Section Timeline.
Context {F : Type} `{Arith F}.

(** The body of [for viseme_id in viseme_sequence], on the loop state
    [(visemes, current_time)]. *)
Definition append_viseme (viseme_duration : F)
    (st : list (Entry F) * F) (viseme_id : Z) : list (Entry F) * F :=
  let '(visemes, current_time) := st in
  (visemes ++ [mkEntry viseme_id current_time viseme_duration],
   fadd current_time viseme_duration).

(** The body of [for word in words], on the same state. *)
Definition word_body (time_per_word : F)
    (st : list (Entry F) * F) (word : string) : result (list (Entry F) * F) :=
  let word_duration := time_per_word in
  do viseme_sequence <- _word_to_visemes word;
  do viseme_duration <- truediv word_duration (Z.max (len viseme_sequence) 1);
  Ok (fold_left (append_viseme viseme_duration) viseme_sequence st).

Definition generate_viseme_sequence (text : string) (audio_duration : F)
    : result (list (Entry F)) :=
  let words := split (lower text) in
  let visemes := [] in
  do time_per_word <- truediv audio_duration (Z.max (len words) 1);
  let current_time := fzero in
  do st <- for_each (word_body time_per_word) (visemes, current_time) words;
  Ok (fst st).

(** [sum(e['duration'] for e in entries)]: Python adds from the left,
    starting at zero. *)
Definition sum_durations (entries : list (Entry F)) : F :=
  fold_left (fun acc e => fadd acc (duration e)) entries fzero.
End Timeline.

(** ** Reading the loops as folds

    The closed forms below are what the methods compute once no exception
    is left to raise; the lemmas of the next part prove it. *)

(** The viseme of one character of a word. *)
Definition letter_of (char : string) : Z := get letter_to_viseme char 0.

(** The visemes a single character can get. *)
Definition letter_visemes : list Z := [0; 1; 2; 4; 5; 6; 7; 8; 10; 11; 12].

(** The list [_word_to_visemes] returns. *)
Definition visemes_of (word : string) : list Z :=
  match chars word with
  | [] => [0]
  | cs => map letter_of cs
  end.

Section Laying.
Context {F : Type} `{Arith F}.

Definition viseme_duration_of (time_per_word : F) (word : string) : F :=
  fdiv time_per_word (of_int (Z.max (len (visemes_of word)) 1)).

Definition lay_word (time_per_word : F) (st : list (Entry F) * F) (word : string)
    : list (Entry F) * F :=
  fold_left (append_viseme (viseme_duration_of time_per_word word)) (visemes_of word) st.

Definition lay_words (time_per_word : F) (st : list (Entry F) * F) (words : list string)
    : list (Entry F) * F :=
  fold_left (lay_word time_per_word) words st.

Definition time_per_word_of (text : string) (audio_duration : F) : F :=
  fdiv audio_duration (of_int (Z.max (len (split (lower text))) 1)).

(** [tiles t es t']: the entries [es] follow one another from time [t] to
    time [t'], each starting where the one before it ends. *)
Inductive tiles : F -> list (Entry F) -> F -> Prop :=
| tiles_nil t : tiles t [] t
| tiles_cons t e es t' :
    time_offset e = t ->
    tiles (fadd t (duration e)) es t' ->
    tiles t (e :: es) t'.

(** The invariant of both loops for an order [fle]: the offsets written
    so far are sorted and none is after [current_time], which is not
    negative. *)
Definition ordered (fle : F -> F -> Prop) (st : list (Entry F) * F) : Prop :=
  StronglySorted fle (map time_offset (fst st))
  /\ Forall (fun t => fle t (snd st)) (map time_offset (fst st))
  /\ fle fzero (snd st).
End Laying.

(** ** The methods never raise *)

Lemma bind_Ok {A B} (a : A) (k : A -> result B) : bind (Ok a) k = k a.
Proof. reflexivity. Qed.

Lemma for_each_pure {A S} (body : S -> A -> result S) (f : S -> A -> S) :
  (forall s x, body s x = Ok (f s x)) ->
  forall l s, for_each body s l = Ok (fold_left f l s).
Proof.
  intros Hbody l. induction l as [|x l IH]; intros s; simpl.
  - reflexivity.
  - rewrite Hbody, bind_Ok. apply IH.
Qed.

Lemma _word_to_visemes_char_Ok (visemes : list Z) (char : string) :
  _word_to_visemes_char visemes char = Ok (visemes ++ [letter_of char]).
Proof.
  unfold _word_to_visemes_char, contains, getitem, letter_of, get.
  destruct (letter_to_viseme !! char); reflexivity.
Qed.

Lemma fold_left_snoc_map {A B} (f : A -> B) (l : list A) (acc : list B) :
  fold_left (fun vs x => vs ++ [f x]) l acc = acc ++ map f l.
Proof.
  revert acc. induction l as [|x l IH]; intros acc; simpl.
  - now rewrite app_nil_r.
  - rewrite IH, <- app_assoc. reflexivity.
Qed.

Lemma _word_to_visemes_Ok (word : string) :
  _word_to_visemes word = Ok (visemes_of word).
Proof.
  unfold _word_to_visemes, visemes_of.
  rewrite (for_each_pure _ (fun vs ch => vs ++ [letter_of ch]))
    by apply _word_to_visemes_char_Ok.
  rewrite fold_left_snoc_map, bind_Ok. simpl.
  destruct (chars word); reflexivity.
Qed.

Lemma visemes_of_nonempty (word : string) : visemes_of word <> [].
Proof. unfold visemes_of. destruct (chars word); discriminate. Qed.

Lemma len_pos {A} (l : list A) : l <> [] -> 0 < len l.
Proof. destruct l; [congruence|]. unfold len. simpl. lia. Qed.

Section Totality.
Context {F : Type} `{Arith F}.

Lemma truediv_guarded {A} (x : F) (l : list A) :
  truediv x (Z.max (len l) 1) = Ok (fdiv x (of_int (Z.max (len l) 1))).
Proof.
  unfold truediv. destruct (Z.eqb_spec (Z.max (len l) 1) 0) as [E|_]; [lia|reflexivity].
Qed.

Lemma word_body_Ok (time_per_word : F) st (word : string) :
  word_body time_per_word st word = Ok (lay_word time_per_word st word).
Proof.
  unfold word_body. rewrite _word_to_visemes_Ok, bind_Ok, truediv_guarded, bind_Ok.
  reflexivity.
Qed.

Lemma generate_viseme_sequence_Ok (text : string) (audio_duration : F) :
  generate_viseme_sequence text audio_duration
  = Ok (fst (lay_words (time_per_word_of text audio_duration) ([], fzero)
               (split (lower text)))).
Proof.
  unfold generate_viseme_sequence. rewrite truediv_guarded, bind_Ok.
  rewrite (for_each_pure _ (lay_word (time_per_word_of text audio_duration)))
    by apply word_body_Ok.
  reflexivity.
Qed.
End Totality.

(** ** Entries tile the time line *)

Section Tiling.
Context {F : Type} `{Arith F}.

Lemma tiles_snoc (t0 t1 : F) (es : list (Entry F)) (id : Z) (d : F) :
  tiles t0 es t1 -> tiles t0 (es ++ [mkEntry id t1 d]) (fadd t1 d).
Proof.
  induction 1 as [t|t e es t' He Hes IH]; simpl.
  - apply tiles_cons; [reflexivity|]. apply tiles_nil.
  - apply tiles_cons; assumption.
Qed.

Lemma append_viseme_tiles (t0 d : F) (ids : list Z) :
  forall st, tiles t0 (fst st) (snd st) ->
  tiles t0 (fst (fold_left (append_viseme d) ids st))
           (snd (fold_left (append_viseme d) ids st)).
Proof.
  induction ids as [|id ids IH]; intros [es t] Hst; simpl in *.
  - assumption.
  - apply IH. simpl. now apply tiles_snoc.
Qed.

Lemma lay_words_tiles (t0 tpw : F) (words : list string) :
  forall st, tiles t0 (fst st) (snd st) ->
  tiles t0 (fst (lay_words tpw st words)) (snd (lay_words tpw st words)).
Proof.
  unfold lay_words.
  induction words as [|w words IH]; intros st Hst; simpl.
  - assumption.
  - apply IH. unfold lay_word. now apply append_viseme_tiles.
Qed.

Lemma tiles_head (t0 t1 : F) (e : Entry F) (es : list (Entry F)) :
  tiles t0 (e :: es) t1 -> time_offset e = t0.
Proof. inversion 1; assumption. Qed.

Lemma tiles_adjacent (t0 t1 : F) (es : list (Entry F)) :
  tiles t0 es t1 ->
  forall (i : nat) (e e' : Entry F),
    es !! i = Some e -> es !! S i = Some e' ->
    time_offset e' = fadd (time_offset e) (duration e).
Proof.
  induction 1 as [t|t e0 es t' He Hes IH]; intros i e e' Hi Hi'.
  - discriminate.
  - destruct i as [|i]; simpl in *.
    + injection Hi as ->. destruct es as [|e1 es]; [discriminate|].
      injection Hi' as ->. apply tiles_head in Hes. congruence.
    + eapply IH; eassumption.
Qed.

Lemma tiles_fold (t0 t1 : F) (es : list (Entry F)) :
  tiles t0 es t1 -> fold_left (fun acc e => fadd acc (duration e)) es t0 = t1.
Proof.
  induction 1 as [t|t e es t' He Hes IH]; simpl; [reflexivity|assumption].
Qed.

(** The last value of [current_time] is the sum of the durations, with no
    rounding in between: both add the same numbers in the same order. *)
Lemma lay_words_sum (tpw : F) (words : list string) :
  sum_durations (fst (lay_words tpw ([], fzero) words))
  = snd (lay_words tpw ([], fzero) words).
Proof.
  apply tiles_fold, lay_words_tiles. apply tiles_nil.
Qed.
End Tiling.

(** ** What an entry of the result can be *)

Section Entries.
Context {F : Type} `{Arith F}.

Lemma append_viseme_Forall (P : Entry F -> Prop) (d : F) (ids : list Z) :
  (forall id t, In id ids -> P (mkEntry id t d)) ->
  forall st, Forall P (fst st) -> Forall P (fst (fold_left (append_viseme d) ids st)).
Proof.
  induction ids as [|id ids IH]; intros HP [es t] Hst; simpl in *.
  - assumption.
  - apply IH; [intros; apply HP; now right|]. simpl.
    apply Forall_app. split; [assumption|].
    constructor; [apply HP; now left|constructor].
Qed.

(** Every entry comes from a word of the text and a viseme of that word,
    and lasts what the word allots to each of its visemes. *)
Lemma lay_words_Forall (P : Entry F -> Prop) (tpw : F) (words : list string) :
  (forall w id t, In w words -> In id (visemes_of w) ->
     P (mkEntry id t (viseme_duration_of tpw w))) ->
  forall st, Forall P (fst st) -> Forall P (fst (lay_words tpw st words)).
Proof.
  unfold lay_words.
  induction words as [|w words IH]; intros HP st Hst; simpl.
  - assumption.
  - apply IH; [intros; apply HP; [now right|assumption]|].
    unfold lay_word. apply append_viseme_Forall; [|assumption].
    intros id t Hid. apply HP; [now left|assumption].
Qed.
End Entries.

(** ** Offsets never decrease *)

Section Ordered.
Context {F : Type} `{Arith F} (fle : F -> F -> Prop) `{!ArithOrder F fle}.

Lemma StronglySorted_snoc (l : list F) (x : F) :
  StronglySorted fle l -> Forall (fun y => fle y x) l -> StronglySorted fle (l ++ [x]).
Proof.
  induction 1 as [|y l Hl IH Hy]; intros Hx; simpl.
  - repeat constructor.
  - inversion Hx; subst. constructor; [now apply IH|].
    apply Forall_app; split; [assumption|]. now constructor.
Qed.

Lemma append_viseme_ordered (d : F) (ids : list Z) :
  fle fzero d ->
  forall st, ordered fle st -> ordered fle (fold_left (append_viseme d) ids st).
Proof.
  intros Hd. induction ids as [|id ids IH]; intros [es t] Hst; simpl.
  - assumption.
  - apply IH. destruct Hst as (Hs & Hb & H0); simpl in *.
    assert (Ht : fle t (fadd t d)) by now apply fle_add_nonneg.
    unfold ordered; simpl. rewrite map_app; simpl. repeat split.
    + now apply StronglySorted_snoc.
    + apply Forall_app; split.
      * eapply Forall_impl; [exact Hb|]. intros y Hy. simpl in Hy.
        exact (fle_trans _ _ _ Hy Ht).
      * now constructor.
    + exact (fle_trans _ _ _ H0 Ht).
Qed.

Lemma lay_words_ordered (tpw : F) (words : list string) :
  fle fzero tpw ->
  Forall (fun w => len (visemes_of w) <= sys_maxsize) words ->
  forall st, ordered fle st -> ordered fle (lay_words tpw st words).
Proof.
  intros Htpw. unfold lay_words.
  induction words as [|w words IH]; intros Hlen st Hst; simpl.
  - assumption.
  - inversion Hlen as [|? ? Hw Hwords]; subst.
    apply IH; [assumption|]. unfold lay_word.
    apply append_viseme_ordered; [|assumption].
    unfold viseme_duration_of. apply fle_div_pos; [assumption|].
    pose proof (len_pos _ (visemes_of_nonempty w)). lia.
Qed.
End Ordered.

#[export] Instance exact_order : ArithOrder Q Qle.
Proof.
  split; simpl.
  - intros x y z. apply Qle_trans.
  - apply Qle_refl.
  - intros x n Hx [Hn _]. apply Qle_shift_div_l.
    + unfold Qlt; simpl. lia.
    + now rewrite Qmult_0_l.
  - intros x d _ Hd. rewrite <- (Qplus_0_r x) at 1. now apply Qplus_le_r.
Qed.

(** ** Exact arithmetic: the durations add up *)

Section Coverage.
Local Open Scope Q_scope.

Lemma inject_Z_len_cons {A} (x : A) (l : list A) :
  inject_Z (len (x :: l)) == 1 + inject_Z (len l).
Proof.
  unfold len. simpl length. rewrite Nat2Z.inj_succ, <- Z.add_1_l, inject_Z_plus.
  reflexivity.
Qed.

Lemma inject_Z_nonzero (z : Z) : (z <> 0)%Z -> ~ inject_Z z == 0.
Proof. unfold Qeq; simpl. lia. Qed.

Lemma append_viseme_time (d : Q) (ids : list Z) :
  forall st, snd (fold_left (append_viseme d) ids st) == snd st + inject_Z (len ids) * d.
Proof.
  induction ids as [|id ids IH]; intros [es t].
  - simpl. unfold len; simpl. ring.
  - simpl fold_left. rewrite IH, inject_Z_len_cons. simpl. ring.
Qed.

Lemma lay_word_time (tpw : Q) (w : string) (st : list (Entry Q) * Q) :
  snd (lay_word tpw st w) == snd st + tpw.
Proof.
  unfold lay_word. rewrite append_viseme_time. unfold viseme_duration_of.
  pose proof (len_pos _ (visemes_of_nonempty w)) as Hpos.
  rewrite Z.max_l by lia. simpl.
  field. apply inject_Z_nonzero. lia.
Qed.

Lemma lay_words_time (tpw : Q) (words : list string) :
  forall st, snd (lay_words tpw st words) == snd st + inject_Z (len words) * tpw.
Proof.
  unfold lay_words.
  induction words as [|w words IH]; intros st.
  - simpl. unfold len; simpl. ring.
  - simpl fold_left. rewrite IH, lay_word_time, inject_Z_len_cons. ring.
Qed.

Lemma time_per_word_total (text : string) (D : Q) :
  split (lower text) <> [] ->
  inject_Z (len (split (lower text))) * time_per_word_of text D == D.
Proof.
  intros Hw. unfold time_per_word_of.
  pose proof (len_pos _ Hw) as Hpos.
  rewrite Z.max_l by lia. simpl.
  field. apply inject_Z_nonzero. lia.
Qed.

Lemma share_negative {A} (x : Q) (l : list A) :
  x < 0 -> fdiv x (of_int (Z.max (len l) 1)) < 0.
Proof.
  intros Hneg. simpl. apply Qlt_shift_div_r.
  - unfold Qlt; simpl. lia.
  - now rewrite Qmult_0_l.
Qed.
End Coverage.

(** ** Strings: lower-casing and stripping *)

Ltac each_char c :=
  destruct c as [[] [] [] [] [] [] [] []]; vm_compute; reflexivity.

Lemma isspace_lower_char (c : ascii) : isspace (lower_char c) = isspace c.
Proof. each_char c. Qed.

Lemma lower_char_idem (c : ascii) : lower_char (lower_char c) = lower_char c.
Proof. each_char c. Qed.

Lemma lower_idem (s : string) : lower (lower s) = lower s.
Proof.
  induction s as [|c s IH]; simpl; [reflexivity|].
  now rewrite lower_char_idem, IH.
Qed.

Lemma lower_empty (s : string) : lower s = EmptyString <-> s = EmptyString.
Proof. destruct s; simpl; split; intros E; congruence. Qed.

Lemma lower_lstrip (s : string) : lower (lstrip s) = lstrip (lower s).
Proof.
  induction s as [|c s IH]; simpl; [reflexivity|].
  rewrite isspace_lower_char. destruct (isspace c); [assumption|reflexivity].
Qed.

Lemma lower_rstrip (s : string) : lower (rstrip s) = rstrip (lower s).
Proof.
  induction s as [|c s IH]; simpl; [reflexivity|].
  rewrite isspace_lower_char, <- IH.
  destruct (isspace c); simpl; [|reflexivity].
  destruct (rstrip s) as [|c' r]; reflexivity.
Qed.

Lemma lower_strip (s : string) : lower (strip s) = strip (lower s).
Proof. unfold strip. now rewrite lower_rstrip, lower_lstrip. Qed.

Lemma lstrip_idem (s : string) : lstrip (lstrip s) = lstrip s.
Proof.
  induction s as [|c s IH]; simpl; [reflexivity|].
  destruct (isspace c) eqn:E; [assumption|]. simpl. now rewrite E.
Qed.

Lemma rstrip_cons (c : ascii) (s : string) :
  rstrip (String c s)
  = if isspace c && bool_decide (rstrip s = EmptyString)
    then EmptyString else String c (rstrip s).
Proof. reflexivity. Qed.

Lemma rstrip_idem (s : string) : rstrip (rstrip s) = rstrip s.
Proof.
  induction s as [|c s IH]; [reflexivity|].
  rewrite rstrip_cons.
  destruct (isspace c && bool_decide (rstrip s = EmptyString)) eqn:E; [reflexivity|].
  rewrite rstrip_cons, IH, E. reflexivity.
Qed.

Lemma lstrip_rstrip (s : string) : lstrip (rstrip s) = rstrip (lstrip s).
Proof.
  induction s as [|c s IH]; [reflexivity|].
  rewrite rstrip_cons. simpl lstrip at 2.
  destruct (isspace c) eqn:E; simpl andb.
  - rewrite <- IH. case_bool_decide as Er.
    + now rewrite Er.
    + simpl. now rewrite E.
  - rewrite rstrip_cons, E. simpl. now rewrite E.
Qed.

Lemma strip_idem (s : string) : strip (strip s) = strip s.
Proof.
  unfold strip. now rewrite lstrip_rstrip, lstrip_idem, rstrip_idem.
Qed.

(** Normalising a label that is already normalised changes nothing. *)
Lemma normalise_idem (s : string) : strip (lower (strip (lower s))) = strip (lower s).
Proof. now rewrite lower_strip, lower_idem, strip_idem. Qed.

(** A text has no word exactly when all its characters are whitespace. *)
Lemma split_from_word (word s : string) :
  word <> EmptyString -> split_from word s <> [].
Proof.
  revert word. induction s as [|c s IH]; intros word Hw; simpl.
  - destruct (decide (word = EmptyString)); [contradiction|discriminate].
  - destruct (isspace c).
    + destruct (decide (word = EmptyString)); [contradiction|discriminate].
    + apply IH. destruct word; discriminate.
Qed.

Lemma split_nil (s : string) :
  split s = [] <-> Forall (fun c => isspace c = true) (list_ascii_of_string s).
Proof.
  unfold split. induction s as [|c s IH]; simpl.
  - split; [constructor|reflexivity].
  - destruct (isspace c) eqn:E; simpl.
    + rewrite IH. split; [now constructor|now inversion 1].
    + split.
      * intros Hs. now apply split_from_word in Hs.
      * inversion 1; congruence.
Qed.

Lemma lower_whitespace (s : string) :
  Forall (fun c => isspace c = true) (list_ascii_of_string (lower s))
  <-> Forall (fun c => isspace c = true) (list_ascii_of_string s).
Proof.
  induction s as [|c s IH]; simpl; [reflexivity|].
  split; inversion 1; subst; constructor;
    rewrite ?isspace_lower_char in *; tauto.
Qed.

(** Iterating over a word never yields a string of two characters. *)
Lemma chars_single (word char : string) :
  In char (chars word) -> exists c, char = String c EmptyString.
Proof.
  induction word as [|c word IH]; simpl; [contradiction|].
  intros [<-|Hin]; [now exists c|now apply IH].
Qed.

(** ** Lengths: what the divisors can be *)

Lemma length_append (s1 s2 : string) :
  String.length (s1 +:+ s2) = (String.length s1 + String.length s2)%nat.
Proof. induction s1 as [|c s1 IH]; simpl; [reflexivity|now rewrite IH]. Qed.

Lemma length_lower (s : string) : String.length (lower s) = String.length s.
Proof. induction s as [|c s IH]; simpl; [reflexivity|now rewrite IH]. Qed.

Lemma length_chars (s : string) : length (chars s) = String.length s.
Proof. induction s as [|c s IH]; simpl; [reflexivity|now rewrite IH]. Qed.

Lemma len_visemes_of (word : string) :
  len (visemes_of word) = Z.max (Z.of_nat (String.length word)) 1.
Proof.
  unfold visemes_of, len. rewrite <- length_chars.
  destruct (chars word) as [|ch cs]; [reflexivity|].
  rewrite length_map. simpl length. lia.
Qed.

(** [split] makes no more words than the text has characters, and no word
    longer than the text. *)
Lemma split_from_lengths (s : string) :
  forall word : string,
    (length (split_from word s) <= S (String.length s))%nat
    /\ (word = EmptyString -> length (split_from word s) <= String.length s)%nat
    /\ Forall (fun w => String.length w <= String.length word + String.length s)%nat
         (split_from word s).
Proof.
  induction s as [|c s IH]; intros word; simpl.
  - destruct (decide (word = EmptyString)); simpl; repeat split; try lia;
      try congruence; repeat constructor; lia.
  - destruct (isspace c).
    + destruct (IH EmptyString) as (_ & Hn & Hw). specialize (Hn eq_refl).
      destruct (decide (word = EmptyString)); simpl; repeat split; try lia;
        try congruence; repeat constructor; try lia;
        (eapply Forall_impl; [exact Hw|]; simpl; intros; lia).
    + destruct (IH (word +:+ String c EmptyString)) as (Hn & _ & Hw).
      rewrite length_append in Hw. simpl in Hw.
      repeat split; try lia.
      eapply Forall_impl; [exact Hw|]. simpl; intros; lia.
Qed.

Lemma split_lengths (text : string) :
  Z.of_nat (String.length text) <= sys_maxsize ->
  len (split (lower text)) <= sys_maxsize
  /\ Forall (fun w => len (visemes_of w) <= sys_maxsize) (split (lower text)).
Proof.
  intros Htext. unfold split.
  destruct (split_from_lengths (lower text) EmptyString) as (_ & Hn & Hw).
  specialize (Hn eq_refl). rewrite length_lower in Hn, Hw. split.
  - unfold len. lia.
  - eapply Forall_impl; [exact Hw|]. simpl. intros w Hlen.
    rewrite len_visemes_of. unfold sys_maxsize in *. lia.
Qed.

(** ** Binary64: the order that rounding keeps

    The primitive floats are specified by [SpecFloat]: a finite float is a
    sign, a mantissa and an exponent, and an operation is the exact one
    followed by rounding to nearest even. *)

Module Binary64.

Definition fexp64 (e : Z) : Z := SpecFloat.fexp prec emax e.

Lemma fexp64_eq e : fexp64 e = Z.max (e - 53) (-1074).
Proof. reflexivity. Qed.

Lemma digits2_pos_size (p : positive) : digits2_pos p = Pos.size p.
Proof. induction p as [p IH|p IH|]; simpl; congruence. Qed.

Lemma Zdigits2_bounds (m : Z) :
  0 < m -> 0 < Zdigits2 m /\ 2 ^ (Zdigits2 m - 1) <= m < 2 ^ Zdigits2 m.
Proof.
  destruct m as [|p|p]; try lia. intros _. simpl Zdigits2.
  rewrite digits2_pos_size. split; [lia|].
  pose proof (Pos.size_gt p) as Hgt. pose proof (Pos.size_le p) as Hle.
  apply Pos2Z.pos_lt_pos in Hgt. apply Pos2Z.pos_le_pos in Hle.
  rewrite Pos2Z.inj_pow in Hgt, Hle. change (Z.pos p~0) with (2 * Z.pos p) in Hle.
  replace (Z.pos (Pos.size p)) with (Z.succ (Z.pos (Pos.size p) - 1)) in Hle at 1 by lia.
  rewrite Z.pow_succ_r in Hle by lia. change (Z.pos 2) with 2 in *. lia.
Qed.

Lemma Zdigits2_unique (m d : Z) :
  2 ^ (d - 1) <= m < 2 ^ d -> 0 < d -> Zdigits2 m = d.
Proof.
  intros [Hlo Hhi] Hd.
  assert (Hm : 0 < m) by (pose proof (Z.pow_pos_nonneg 2 (d - 1)); lia).
  destruct (Zdigits2_bounds m Hm) as (Hpos & Hlo' & Hhi').
  assert (Zdigits2 m - 1 < d).
  { apply (Z.pow_lt_mono_r_iff 2); lia. }
  assert (d - 1 < Zdigits2 m).
  { apply (Z.pow_lt_mono_r_iff 2); lia. }
  lia.
Qed.

Lemma Zdigits2_mono (a b : Z) : 0 < a -> a <= b -> Zdigits2 a <= Zdigits2 b.
Proof.
  intros Ha Hab.
  destruct (Zdigits2_bounds a Ha) as (Hpa & Hla & Hha).
  destruct (Zdigits2_bounds b ltac:(lia)) as (Hpb & Hlb & Hhb).
  assert (Zdigits2 a - 1 < Zdigits2 b).
  { apply (Z.pow_lt_mono_r_iff 2); lia. }
  lia.
Qed.

Lemma Zdigits2_shift (m k : Z) : 0 < m -> 0 <= k -> Zdigits2 (m * 2 ^ k) = Zdigits2 m + k.
Proof.
  intros Hm Hk. destruct (Zdigits2_bounds m Hm) as (Hp & Hl & Hh).
  apply Zdigits2_unique; [|lia].
  replace (Zdigits2 m + k - 1) with ((Zdigits2 m - 1) + k) by lia.
  rewrite !Z.pow_add_r by lia.
  pose proof (Z.pow_pos_nonneg 2 k). nia.
Qed.

Lemma Zdigits2_upper (m d : Z) : 0 < m -> m < 2 ^ d -> Zdigits2 m <= d.
Proof.
  intros Hm Hd. destruct (Zdigits2_bounds m Hm) as (Hp & Hl & Hh).
  destruct (Z.le_gt_cases 0 d) as [H0|H0].
  - assert (Zdigits2 m - 1 < d); [|lia].
    apply (Z.pow_lt_mono_r_iff 2); lia.
  - rewrite Z.pow_neg_r in Hd by lia. lia.
Qed.

(** Shifting right *)

Lemma shr_1_m (mrs : shr_record) :
  0 <= shr_m mrs -> shr_m (shr_1 mrs) = shr_m mrs / 2.
Proof.
  destruct mrs as [m r s]; simpl. intros Hm.
  rewrite <- Z.div2_div. destruct m as [|[p|p|]|]; try lia; reflexivity.
Qed.

Lemma iter_shr_1_m (p : positive) :
  forall mrs, 0 <= shr_m mrs ->
  shr_m (SpecFloat.iter_pos shr_1 p mrs) = shr_m mrs / 2 ^ Z.pos p.
Proof.
  assert (Hpow : forall q, 0 < 2 ^ Z.pos q) by (intros; apply Z.pow_pos_nonneg; lia).
  assert (Hdiv : forall a q, 0 <= a -> 0 <= a / 2 ^ Z.pos q)
    by (intros; apply Z.div_pos; auto).
  induction p as [p IH|p IH|]; intros mrs Hm; simpl SpecFloat.iter_pos.
  - assert (H1 : 0 <= shr_m (shr_1 mrs))
      by (rewrite shr_1_m by assumption; apply Z.div_pos; lia).
    assert (H2 : 0 <= shr_m (SpecFloat.iter_pos shr_1 p (shr_1 mrs)))
      by (rewrite IH by assumption; auto).
    assert (E : 2 ^ Z.pos p~1 = 2 * (2 ^ Z.pos p * 2 ^ Z.pos p)).
    { rewrite (Pos2Z.inj_xI p).
      replace (2 * Z.pos p + 1) with (1 + (Z.pos p + Z.pos p)) by lia.
      rewrite !Z.pow_add_r by lia. reflexivity. }
    rewrite (IH _ H2), (IH _ H1), shr_1_m, E by assumption.
    rewrite !Z.div_div by (auto; lia). reflexivity.
  - assert (H2 : 0 <= shr_m (SpecFloat.iter_pos shr_1 p mrs))
      by (rewrite IH by assumption; auto).
    assert (E : 2 ^ Z.pos p~0 = 2 ^ Z.pos p * 2 ^ Z.pos p).
    { rewrite (Pos2Z.inj_xO p).
      replace (2 * Z.pos p) with (Z.pos p + Z.pos p) by lia.
      rewrite !Z.pow_add_r by lia. reflexivity. }
    rewrite (IH _ H2), (IH _ Hm), E.
    rewrite !Z.div_div by (auto; lia). reflexivity.
  - now apply shr_1_m.
Qed.

Lemma shr_record_of_loc_m (m : Z) (l : location) : shr_m (shr_record_of_loc m l) = m.
Proof. destruct l as [|[]]; reflexivity. Qed.

(** [shr_fexp] brings a mantissa to the exponent of its format. *)
Lemma shr_fexp_spec (m e : Z) (l : location) :
  0 <= m ->
  let c := fexp64 (Zdigits2 m + e) in
  let r := shr_fexp prec emax m e l in
  (e < c -> shr_m (fst r) = m / 2 ^ (c - e) /\ snd r = c)
  /\ (c <= e -> shr_m (fst r) = m /\ snd r = e).
Proof.
  intros Hm c r. subst r. unfold shr_fexp, shr. fold (fexp64 (Zdigits2 m + e)). fold c.
  destruct (c - e) as [|p|p] eqn:E; simpl; split; intros Hc; try lia;
    rewrite ?iter_shr_1_m, ?shr_record_of_loc_m; try (rewrite shr_record_of_loc_m; lia).
  - split; [reflexivity|lia].
  - split; [reflexivity|lia].
  - split; [reflexivity|lia].
Qed.

Lemma round_nearest_even_bounds (m : Z) (l : location) :
  m <= round_nearest_even m l <= m + 1.
Proof.
  destruct l as [|[]]; simpl; try lia. destruct (Z.even m); lia.
Qed.

(** Rounding a positive mantissa that sits at or below the exponent of its
    format: the result is positive, finite or infinite, at the exponent of
    the format or the next one. *)
Lemma binary_round_aux_pos (m e : Z) :
  0 < m -> -1074 <= e -> e <= fexp64 (Zdigits2 m + e) ->
  exists (p : positive) (e4 : Z),
    binary_round_aux prec emax false m e loc_Exact
    = (if e4 <=? 971 then S754_finite false p e4 else S754_infinity false)
    /\ ((e4 = fexp64 (Zdigits2 m + e)
         /\ m / 2 ^ (fexp64 (Zdigits2 m + e) - e) <= Z.pos p)
        \/ fexp64 (Zdigits2 m + e) < e4)
    /\ e4 <= fexp64 (Zdigits2 m + e) + 1.
Proof.
  intros Hm He Hc. set (c := fexp64 (Zdigits2 m + e)) in *.
  destruct (Zdigits2_bounds m Hm) as (Hd & Hlo & Hhi).
  set (d := Zdigits2 m) in *.
  assert (Hcd : c = Z.max (d + e - 53) (-1074)) by reflexivity.
  assert (Hpow : 0 < 2 ^ (c - e)) by (apply Z.pow_pos_nonneg; lia).
  (* the first shift *)
  unfold binary_round_aux.
  pose proof (shr_fexp_spec m e loc_Exact (Z.lt_le_incl _ _ Hm)) as [S1 S1'].
  fold d c in S1, S1'.
  destruct (shr_fexp prec emax m e loc_Exact) as [mrs1 e1]; simpl in S1, S1'.
  assert (H1 : shr_m mrs1 = m / 2 ^ (c - e) /\ e1 = c).
  { destruct (Z.eq_dec c e) as [E|E].
    - destruct S1' as [-> ->]; [lia|]. rewrite E, Z.sub_diag, Z.pow_0_r, Z.div_1_r. auto.
    - apply S1. lia. }
  destruct H1 as [Hm2 ->]. clear S1 S1'.
  set (m2 := m / 2 ^ (c - e)) in *.
  assert (Hm2pos : 0 < m2).
  { apply Z.div_str_pos. split; [assumption|].
    apply Z.le_trans with (2 ^ (d - 1)); [|lia].
    apply Z.pow_le_mono_r; lia. }
  assert (Hm2up : m2 < 2 ^ 53).
  { apply Z.div_lt_upper_bound; [assumption|].
    rewrite <- Z.pow_add_r by lia.
    apply Z.lt_le_trans with (2 ^ d); [lia|].
    apply Z.pow_le_mono_r; [lia|]. clear - Hcd. lia. }
  (* rounding *)
  pose proof (round_nearest_even_bounds (shr_m mrs1) (loc_of_shr_record mrs1)) as Hr.
  set (m3 := round_nearest_even (shr_m mrs1) (loc_of_shr_record mrs1)) in *.
  clearbody m3. rewrite Hm2 in Hr.
  assert (Hm3 : 0 < m3) by (clear - Hr Hm2pos; lia).
  destruct (Zdigits2_bounds m3 Hm3) as (Hd3 & Hlo3 & Hhi3).
  assert (Hd3up : Zdigits2 m3 <= 54).
  { apply Zdigits2_upper; [assumption|].
    apply Z.le_lt_trans with (2 ^ 53); [lia|]. reflexivity. }
  (* the second shift *)
  pose proof (shr_fexp_spec m3 c loc_Exact (Z.lt_le_incl _ _ Hm3)) as [S2 S2'].
  set (d3 := Zdigits2 m3) in *. set (c3 := fexp64 (d3 + c)) in *.
  assert (Hc3 : c3 = Z.max (d3 + c - 53) (-1074)) by reflexivity.
  destruct (shr_fexp prec emax m3 c loc_Exact) as [mrs2 e2]; simpl in S2, S2'.
  change (Z.sub emax prec) with 971.
  destruct (Z.lt_ge_cases c c3) as [Hlt|Hge].
  - destruct (S2 Hlt) as [Hm4 ->].
    assert (Hm4pos : 0 < shr_m mrs2).
    { rewrite Hm4. apply Z.div_str_pos. split; [apply Z.pow_pos_nonneg; lia|].
      apply Z.le_trans with (2 ^ (d3 - 1)); [|lia].
      apply Z.pow_le_mono_r; lia. }
    destruct (shr_m mrs2) as [|p|p]; try lia.
    exists p, c3. split; [reflexivity|]. split; [right; lia|lia].
  - destruct (S2' Hge) as [Hm4 ->].
    rewrite Hm4. destruct m3 as [|p|p]; try lia.
    exists p, c. split; [reflexivity|]. split; [left; split; [reflexivity|lia]|lia].
Qed.

(** Shifting left *)

Lemma iter_xO_pow (m d : positive) : Z.pos (Pos.iter xO m d) = Z.pos m * 2 ^ Z.pos d.
Proof.
  induction d as [|d IH] using Pos.peano_ind.
  - simpl. lia.
  - rewrite Pos.iter_succ, Pos2Z.inj_succ, Z.pow_succ_r by lia.
    rewrite (Pos2Z.inj_xO (Pos.iter xO m d)), IH. ring.
Qed.

Lemma shl_align_spec (m : positive) (e e' : Z) :
  e' <= e ->
  Z.pos (fst (shl_align m e e')) = Z.pos m * 2 ^ (e - e') /\ snd (shl_align m e e') = e'.
Proof.
  intros He. unfold shl_align. destruct (e' - e) as [|d|d] eqn:E; try lia; simpl.
  - replace (e - e') with 0 by lia. rewrite Z.pow_0_r. split; lia.
  - rewrite iter_xO_pow. replace (e - e') with (Z.pos d) by lia. split; reflexivity.
Qed.

Lemma shl_align_id (m : positive) (e e' : Z) :
  e <= e' -> shl_align m e e' = (m, e).
Proof.
  intros He. unfold shl_align. destruct (e' - e) as [|d|d] eqn:E; try lia; reflexivity.
Qed.

(** Rounding a positive integer mantissa [p] at exponent [e]. *)
Lemma binary_round_pos (p : positive) (e : Z) :
  -1074 <= e ->
  exists (q : positive) (e4 : Z),
    binary_round prec emax false p e
    = (if e4 <=? 971 then S754_finite false q e4 else S754_infinity false)
    /\ ((e4 = fexp64 (Zdigits2 (Z.pos p) + e)
         /\ (e <= fexp64 (Zdigits2 (Z.pos p) + e) ->
             Z.pos p / 2 ^ (fexp64 (Zdigits2 (Z.pos p) + e) - e) <= Z.pos q))
        \/ fexp64 (Zdigits2 (Z.pos p) + e) < e4)
    /\ e4 <= fexp64 (Zdigits2 (Z.pos p) + e) + 1.
Proof.
  intros He. unfold binary_round.
  change (Z.pos (digits2_pos p)) with (Zdigits2 (Z.pos p)).
  fold (fexp64 (Zdigits2 (Z.pos p) + e)).
  set (c := fexp64 (Zdigits2 (Z.pos p) + e)).
  assert (Hc : -1074 <= c) by (unfold c; rewrite fexp64_eq; lia).
  destruct (Z.lt_ge_cases c e) as [Hlt|Hge].
  - destruct (shl_align_spec p e c (Z.lt_le_incl _ _ Hlt)) as [Hm Hez].
    destruct (shl_align p e c) as [mz ez]; cbn [fst snd] in Hm, Hez. subst ez.
    assert (Hd : Zdigits2 (Z.pos mz) + c = Zdigits2 (Z.pos p) + e).
    { rewrite Hm, Zdigits2_shift by lia. lia. }
    destruct (binary_round_aux_pos (Z.pos mz) c) as (q & e4 & Hq & Hor & Hup);
      try lia; rewrite ?Hd; fold c; try lia.
    exists q, e4. rewrite Hd in Hor, Hup. fold c in Hor, Hup.
    split; [exact Hq|]. split; [|exact Hup].
    destruct Hor as [[-> _]|Hor]; [left; split; [reflexivity|lia]|right; exact Hor].
  - rewrite shl_align_id by assumption.
    destruct (binary_round_aux_pos (Z.pos p) e) as (q & e4 & Hq & Hor & Hup);
      try lia; fold c; try lia.
    exists q, e4. fold c in Hor, Hup.
    split; [exact Hq|]. split; [|exact Hup].
    destruct Hor as [[-> Hle]|Hor]; [left; split; [reflexivity|intros _; exact Hle]|right; exact Hor].
Qed.

(** The order of the format *)

Definition nonneg (f : spec_float) : bool := SFleb (S754_zero false) f.

Ltac compare_cases :=
  repeat match goal with
  | H : context [Z.compare ?a ?b] |- _ => destruct (Z.compare_spec a b)
  | |- context [Z.compare ?a ?b] => destruct (Z.compare_spec a b)
  | H : context [Pos.compare ?a ?b] |- _ => destruct (Pos.compare_spec a b)
  | |- context [Pos.compare ?a ?b] => destruct (Pos.compare_spec a b)
  end.

Lemma SFleb_trans (a b c : spec_float) :
  SFleb a b = true -> SFleb b c = true -> SFleb a c = true.
Proof.
  unfold SFleb, SFcompare.
  destruct a as [sa|sa| |sa ma ea], b as [sb|sb| |sb mb eb], c as [sc|sc| |sc mc ec];
    try destruct sa; try destruct sb; try destruct sc;
    try reflexivity; try discriminate;
    change (Pos.compare_cont Eq) with Pos.compare;
    intros Hab Hbc; compare_cases; simpl in *;
    try reflexivity; try discriminate; subst; lia.
Qed.

Lemma SFleb_finite_refl (m : positive) (e : Z) :
  SFleb (S754_finite false m e) (S754_finite false m e) = true.
Proof.
  unfold SFleb, SFcompare. change (Pos.compare_cont Eq) with Pos.compare.
  now rewrite Z.compare_refl, Pos.compare_refl.
Qed.

Lemma SFleb_finite (m q : positive) (e e4 : Z) :
  e < e4 \/ (e = e4 /\ Z.pos m <= Z.pos q) ->
  SFleb (S754_finite false m e) (S754_finite false q e4) = true.
Proof.
  intros H. unfold SFleb, SFcompare. change (Pos.compare_cont Eq) with Pos.compare.
  compare_cases; try reflexivity; lia.
Qed.

Lemma canonical_exponent (m : positive) (e : Z) :
  valid_binary (S754_finite false m e) = true ->
  fexp64 (Zdigits2 (Z.pos m) + e) = e.
Proof.
  simpl. unfold bounded, canonical_mantissa. intros H.
  apply andb_true_iff in H as [H _]. now apply Z.eqb_eq in H.
Qed.

(** Adding a non-negative number does not go down. *)
Lemma SFadd_finite_ge (mx my : positive) (ex ey : Z) :
  valid_binary (S754_finite false mx ex) = true ->
  valid_binary (S754_finite false my ey) = true ->
  SFleb (S754_finite false mx ex)
        (SF64add (S754_finite false mx ex) (S754_finite false my ey)) = true.
Proof.
  intros Hx Hy. apply canonical_exponent in Hx, Hy.
  assert (Hex : -1074 <= ex) by (rewrite <- Hx, fexp64_eq; lia).
  assert (Hey : -1074 <= ey) by (rewrite <- Hy, fexp64_eq; lia).
  unfold SF64add, SFadd. cbn [cond_Zopp].
  set (ez := Z.min ex ey).
  destruct (shl_align_spec mx ex ez ltac:(lia)) as [HA _].
  destruct (shl_align_spec my ey ez ltac:(lia)) as [HB _].
  set (A := fst (shl_align mx ex ez)) in *. set (B := fst (shl_align my ey ez)) in *.
  clearbody A B.
  change (Z.pos A + Z.pos B) with (Z.pos (A + B)). cbn [binary_normalize].
  destruct (binary_round_pos (A + B) ez ltac:(lia)) as (q & e4 & -> & Hor & _).
  set (c := fexp64 (Zdigits2 (Z.pos (A + B)) + ez)) in *.
  assert (Hpow : 0 < 2 ^ (ex - ez)) by (apply Z.pow_pos_nonneg; lia).
  assert (Hc : ex <= c).
  { assert (Hd : Zdigits2 (Z.pos mx) + (ex - ez) <= Zdigits2 (Z.pos (A + B))).
    { rewrite <- Zdigits2_shift, <- HA by lia. apply Zdigits2_mono; lia. }
    unfold c. rewrite <- Hx at 1. rewrite !fexp64_eq. lia. }
  destruct (e4 <=? 971); [|reflexivity].
  apply SFleb_finite.
  destruct Hor as [[-> Hq]|Hlt]; [|lia].
  destruct (Z.eq_dec ex c) as [E|E]; [right|lia]. split; [assumption|].
  apply Z.le_trans with (Z.pos (A + B) / 2 ^ (c - ez)); [|apply Hq; lia].
  rewrite <- E. apply Z.div_le_lower_bound; [assumption|].
  rewrite Pos2Z.inj_add, HA. lia.
Qed.

Lemma SFadd_ge (x y : spec_float) :
  valid_binary x = true -> valid_binary y = true ->
  nonneg x = true -> nonneg y = true ->
  SFleb x (SF64add x y) = true.
Proof.
  intros Vx Vy Hx Hy.
  destruct x as [sx|[]| |[] mx ex], y as [sy|[]| |[] my ey];
    try discriminate Hx; try discriminate Hy;
    try (now apply SFadd_finite_ge);
    try apply SFleb_finite_refl;
    try reflexivity.
  all: destruct sx; try destruct sy; reflexivity.
Qed.

(** Rounding a mantissa that is not negative gives no NaN, and a number of
    the sign asked for. *)
Definition has_sign (sx : bool) (f : spec_float) : Prop :=
  match f with
  | S754_nan => False
  | S754_zero s | S754_infinity s | S754_finite s _ _ => s = sx
  end.

Lemma binary_round_aux_sign (sx : bool) (m e : Z) (l : location) :
  0 <= m -> has_sign sx (binary_round_aux prec emax sx m e l).
Proof.
  intros Hm. unfold binary_round_aux.
  pose proof (shr_fexp_spec m e l Hm) as [S1 S1'].
  destruct (shr_fexp prec emax m e l) as [mrs1 e1]; cbn [fst snd] in S1, S1'.
  assert (H1 : 0 <= shr_m mrs1).
  { destruct (Z.lt_ge_cases e (fexp64 (Zdigits2 m + e))) as [Hlt|Hge].
    - destruct (S1 Hlt) as [-> _]. apply Z.div_pos; [assumption|].
      apply Z.pow_pos_nonneg; lia.
    - now destruct (S1' Hge) as [-> _]. }
  pose proof (round_nearest_even_bounds (shr_m mrs1) (loc_of_shr_record mrs1)) as Hr.
  set (m3 := round_nearest_even (shr_m mrs1) (loc_of_shr_record mrs1)) in *.
  clearbody m3. assert (H3 : 0 <= m3) by lia.
  pose proof (shr_fexp_spec m3 e1 loc_Exact H3) as [S2 S2'].
  destruct (shr_fexp prec emax m3 e1 loc_Exact) as [mrs2 e2]; cbn [fst snd] in S2, S2'.
  assert (H4 : 0 <= shr_m mrs2).
  { destruct (Z.lt_ge_cases e1 (fexp64 (Zdigits2 m3 + e1))) as [Hlt|Hge].
    - destruct (S2 Hlt) as [-> _]. apply Z.div_pos; [assumption|].
      apply Z.pow_pos_nonneg; lia.
    - now destruct (S2' Hge) as [-> _]. }
  destruct (shr_m mrs2) as [|p|p]; try lia; [reflexivity|].
  destruct (e2 <=? emax - prec); reflexivity.
Qed.

(** A number divided by a positive finite one keeps its sign. *)
Lemma SFdiv_sign (sx : bool) (x : spec_float) (my : positive) (ey : Z) :
  has_sign sx x -> has_sign sx (SF64div x (S754_finite false my ey)).
Proof.
  intros Hx. destruct x as [s|s| |s mx ex]; simpl in Hx; try contradiction; subst s.
  - destruct sx; reflexivity.
  - destruct sx; reflexivity.
  - unfold SF64div, SFdiv, SFdiv_core_binary. rewrite xorb_false_r.
    set (m' := match _ with Z.pos _ => _ | _ => _ end).
    assert (Hm' : 0 <= m').
    { subst m'. destruct (_ - _ - _); try lia. apply Z.shiftl_nonneg. lia. }
    pose proof (Z.div_pos m' (Z.pos my) Hm' ltac:(lia)) as Hq.
    unfold Z.div in Hq. destruct (Z.div_eucl m' (Z.pos my)) as [q r].
    now apply binary_round_aux_sign.
Qed.


Lemma nonneg_sign (f : spec_float) :
  nonneg f = true <-> has_sign false f \/ exists s, f = S754_zero s.
Proof.
  destruct f as [[]|[]| |[] m e]; simpl; split; intros H;
    try reflexivity; try discriminate; try (now left); try (right; now eexists);
    destruct H as [H|[s H]]; try discriminate; try contradiction.
Qed.


Lemma SFdiv_nonneg (x : spec_float) (my : positive) (ey : Z) :
  nonneg x = true -> nonneg (SF64div x (S754_finite false my ey)) = true.
Proof.
  rewrite !nonneg_sign. intros [H|[s ->]].
  - left. now apply SFdiv_sign.
  - right. eexists. reflexivity.
Qed.


(** An int that a length can be converts to a positive finite float. *)
Lemma binary_normalize_int (n : Z) :
  0 < n < 2 ^ 63 ->
  exists (m : positive) (e : Z),
    binary_normalize prec emax n 0 false = S754_finite false m e.
Proof.
  intros [Hn Hup]. destruct n as [|p|p]; try lia. cbn [binary_normalize].
  destruct (binary_round_pos p 0 ltac:(lia)) as (q & e4 & -> & _ & He4).
  assert (Hd : Zdigits2 (Z.pos p) <= 63) by (apply Zdigits2_upper; lia).
  rewrite fexp64_eq in He4.
  exists q, e4. destruct (Z.leb_spec e4 971); [reflexivity|lia].
Qed.

(** The same facts on primitive floats *)

Lemma nonneg_Prim2SF (x : float) : (0 <=? x)%float = true -> nonneg (Prim2SF x) = true.
Proof. rewrite FloatAxioms.leb_spec. intros H. exact H. Qed.

Lemma leb_trans (x y z : float) :
  (x <=? y)%float = true -> (y <=? z)%float = true -> (x <=? z)%float = true.
Proof. rewrite !FloatAxioms.leb_spec. apply SFleb_trans. Qed.

Lemma leb_div_pos (x : float) (n : Z) :
  (0 <=? x)%float = true -> 0 < n < 2 ^ 63 -> (0 <=? x / float_of_int n)%float = true.
Proof.
  intros Hx Hn. apply nonneg_Prim2SF in Hx. rewrite FloatAxioms.leb_spec, FloatAxioms.div_spec.
  unfold float_of_int. destruct (Z.ltb_spec n 0) as [|_]; [lia|].
  rewrite FloatAxioms.of_uint63_spec, Uint63.of_Z_spec, Z.mod_small by (change wB with (2 ^ 63); lia).
  destruct (binary_normalize_int n Hn) as (m & e & ->).
  now apply SFdiv_nonneg.
Qed.



Lemma leb_add_nonneg (x d : float) :
  (0 <=? x)%float = true -> (0 <=? d)%float = true -> (x <=? x + d)%float = true.
Proof.
  intros Hx Hd. apply nonneg_Prim2SF in Hx, Hd. rewrite FloatAxioms.leb_spec, FloatAxioms.add_spec.
  apply SFadd_ge; auto using Prim2SF_valid.
Qed.

End Binary64.

#[export] Instance binary64_order :
  ArithOrder float (fun x y => (x <=? y)%float = true).
Proof.
  split; simpl.
  - apply Binary64.leb_trans.
  - reflexivity.
  - intros x n Hx Hn. apply Binary64.leb_div_pos; [assumption|].
    unfold sys_maxsize in Hn. lia.
  - apply Binary64.leb_add_nonneg.
Qed.

(** ** Binary64: how far rounding goes

    The sum of the durations is a float: each duration is a quotient that
    binary64 rounds, and each addition of the loop rounds again. This part
    bounds the distance to the duration of the audio. Values are counted in
    units of 2^-1074, the smallest positive float, of which every finite
    float is a whole number. *)

(** The value of a finite float that is not negative, in units of 2^-1074:
    the float [m * 2^e] is [m * 2^(e + 1074)] units. *)
Definition units (f : spec_float) : Z :=
  match f with
  | S754_finite false m e => Z.pos m * 2 ^ (e + 1074)
  | _ => 0
  end.

(** Zero or a positive finite float: not an infinity, not NaN. *)
Definition nonneg_finite (f : spec_float) : Prop :=
  match f with
  | S754_zero _ | S754_finite false _ _ => True
  | _ => False
  end.

Definition ulps (x : float) : Z := units (Prim2SF x).

Definition finite_nonneg (x : float) : Prop := nonneg_finite (Prim2SF x).

Example ulps_examples :
  ulps 0 = 0 /\ ulps 0x1p-1074 = 1 /\ ulps 0x1p-1073 = 2
  /\ ulps 0.5 = 2 ^ 1073 /\ ulps 1 = 2 ^ 1074 /\ ulps 3 = 3 * 2 ^ 1074.
Proof. repeat split; vm_compute; reflexivity. Qed.

Module Rounding.
Import Binary64.

Lemma shr_fexp_id (m e : Z) (l : location) :
  fexp64 (Zdigits2 m + e) <= e ->
  shr_fexp prec emax m e l = (shr_record_of_loc m l, e).
Proof.
  intros Hc. unfold shr_fexp, shr. fold (fexp64 (Zdigits2 m + e)).
  destruct (fexp64 (Zdigits2 m + e) - e) as [|p|p] eqn:E; try reflexivity. lia.
Qed.

Lemma loc_of_shr_record_of_loc (m : Z) (l : location) :
  loc_of_shr_record (shr_record_of_loc m l) = l.
Proof. destruct l as [|[]]; reflexivity. Qed.

Lemma Zdigits2_0 : Zdigits2 0 = 0.
Proof. reflexivity. Qed.

Lemma fexp64_ge (k : Z) : -1074 <= fexp64 k /\ k - 53 <= fexp64 k.
Proof. rewrite fexp64_eq. lia. Qed.

(** What rounding returns, for a mantissa [m >= 0] at exponent [e] with any
    location: a mantissa [m3] at the exponent [c] of the format, equal to
    the shifted mantissa or one more. *)
Lemma binary_round_aux_spec (m e : Z) (l : location) :
  0 <= m ->
  exists m3 : Z,
    m / 2 ^ (Z.max e (fexp64 (Zdigits2 m + e)) - e) <= m3
       <= m / 2 ^ (Z.max e (fexp64 (Zdigits2 m + e)) - e) + 1
    /\ (l = loc_Exact -> fexp64 (Zdigits2 m + e) <= e -> m3 = m)
    /\ ((m3 = 0 /\ binary_round_aux prec emax false m e l = S754_zero false)
        \/ exists (p : positive) (e4 : Z),
             Z.max e (fexp64 (Zdigits2 m + e)) <= e4
               <= Z.max e (fexp64 (Zdigits2 m + e)) + 1
             /\ Z.pos p * 2 ^ (e4 - Z.max e (fexp64 (Zdigits2 m + e))) = m3
             /\ binary_round_aux prec emax false m e l
                = if e4 <=? 971 then S754_finite false p e4 else S754_infinity false).
Proof.
  intros Hm. set (c := Z.max e (fexp64 (Zdigits2 m + e))).
  pose proof (fexp64_ge (Zdigits2 m + e)) as [Hemin Hprec].
  assert (Hce : e <= c) by lia.
  assert (Hcmin : -1074 <= c) by lia.
  assert (Hpow : 0 < 2 ^ (c - e)) by (apply Z.pow_pos_nonneg; lia).
  set (f := m / 2 ^ (c - e)).
  assert (Hf0 : 0 <= f) by (apply Z.div_pos; lia).
  assert (Hfup : f < 2 ^ 53).
  { destruct (Z.eq_dec m 0) as [->|Hne]; [subst f; rewrite Z.div_0_l by lia; reflexivity|].
    destruct (Zdigits2_bounds m ltac:(lia)) as (Hd & Hlo & Hhi).
    apply Z.div_lt_upper_bound; [assumption|].
    rewrite <- Z.pow_add_r by lia.
    apply Z.lt_le_trans with (2 ^ Zdigits2 m); [lia|].
    apply Z.pow_le_mono_r; lia. }
  unfold binary_round_aux.
  (* the first shift *)
  assert (H1 : exists mrs1, shr_fexp prec emax m e l = (mrs1, c)
                            /\ shr_m mrs1 = f
                            /\ (fexp64 (Zdigits2 m + e) <= e -> loc_of_shr_record mrs1 = l)).
  { destruct (Z.le_gt_cases (fexp64 (Zdigits2 m + e)) e) as [Hle|Hgt].
    - exists (shr_record_of_loc m l). rewrite shr_fexp_id by assumption.
      replace c with e by lia. split; [reflexivity|].
      rewrite shr_record_of_loc_m, loc_of_shr_record_of_loc. split; [|reflexivity].
      subst f. replace (c - e) with 0 by lia. now rewrite Z.pow_0_r, Z.div_1_r.
    - pose proof (shr_fexp_spec m e l Hm) as [S1 _]. cbv zeta in S1.
      destruct (S1 ltac:(lia)) as [Hsm Hse].
      destruct (shr_fexp prec emax m e l) as [mrs1 e1]; cbn [fst snd] in *.
      exists mrs1. replace c with (fexp64 (Zdigits2 m + e)) by lia.
      subst e1. split; [reflexivity|]. split; [|lia].
      rewrite Hsm. subst f. f_equal. f_equal. lia. }
  destruct H1 as (mrs1 & -> & Hsm & Hloc).
  pose proof (round_nearest_even_bounds (shr_m mrs1) (loc_of_shr_record mrs1)) as Hr.
  assert (Hexact : l = loc_Exact -> fexp64 (Zdigits2 m + e) <= e ->
                   round_nearest_even (shr_m mrs1) (loc_of_shr_record mrs1) = m).
  { intros -> Hle. rewrite (Hloc Hle), Hsm. simpl. subst f.
    replace (c - e) with 0 by lia. now rewrite Z.pow_0_r, Z.div_1_r. }
  set (m3 := round_nearest_even (shr_m mrs1) (loc_of_shr_record mrs1)) in *.
  clearbody m3. rewrite Hsm in Hr. exists m3.
  split; [exact Hr|]. split; [exact Hexact|].
  (* the second shift *)
  assert (Hm3 : 0 <= m3) by lia.
  pose proof (shr_fexp_spec m3 c loc_Exact Hm3) as [S2 S2']. cbv zeta in S2, S2'.
  pose proof (fexp64_ge (Zdigits2 m3 + c)) as [Hemin3 Hprec3].
  assert (Hc3 : fexp64 (Zdigits2 m3 + c) = Z.max (Zdigits2 m3 + c - 53) (-1074))
    by apply fexp64_eq.
  change (Z.sub emax prec) with 971.
  destruct (Z.eq_dec m3 0) as [Hz|Hnz].
  - left. split; [assumption|]. subst m3. rewrite Zdigits2_0 in *.
    destruct (S2' ltac:(lia)) as [Hm4 He4].
    destruct (shr_fexp prec emax 0 c loc_Exact) as [mrs2 e2]; cbn [fst snd] in *.
    now rewrite Hm4.
  - right. destruct (Zdigits2_bounds m3 ltac:(lia)) as (Hd3 & Hlo3 & Hhi3).
    assert (Hd3up : Zdigits2 m3 <= 54).
    { apply Zdigits2_upper; [lia|].
      apply Z.le_lt_trans with (2 ^ 53); [lia|reflexivity]. }
    destruct (Z.lt_ge_cases c (fexp64 (Zdigits2 m3 + c))) as [Hlt|Hge].
    + destruct (S2 Hlt) as [Hm4 He4].
      destruct (shr_fexp prec emax m3 c loc_Exact) as [mrs2 e2]; cbn [fst snd] in *.
      assert (Hd54 : Zdigits2 m3 = 54) by lia.
      assert (Hm3eq : m3 = 2 ^ 53).
      { rewrite Hd54 in Hlo3. change (54 - 1) with 53 in Hlo3. lia. }
      assert (Hshift : fexp64 (Zdigits2 m3 + c) - c = 1) by lia.
      rewrite Hshift in Hm4. rewrite Hm4, Hm3eq.
      change (2 ^ 53 / 2 ^ 1) with (Z.pos (2 ^ 52)).
      exists (2 ^ 52)%positive, e2. subst e2.
      split; [lia|]. split; [|reflexivity].
      rewrite Hshift. reflexivity.
    + destruct (S2' Hge) as [Hm4 He4].
      destruct (shr_fexp prec emax m3 c loc_Exact) as [mrs2 e2]; cbn [fst snd] in *.
      rewrite Hm4. subst e2. destruct m3 as [|p|p]; try lia.
      exists p, c. split; [lia|]. split; [|reflexivity].
      rewrite Z.sub_diag. lia.
Qed.

(** *** Values and rounding *)

Lemma pow2_pos (k : Z) : 0 <= k -> 0 < 2 ^ k.
Proof. intros. apply Z.pow_pos_nonneg; lia. Qed.

Lemma pow2_add (a b : Z) : 0 <= a -> 0 <= b -> 2 ^ (a + b) = 2 ^ a * 2 ^ b.
Proof. intros. apply Z.pow_add_r; assumption. Qed.

(** The magnitude of a number of units. *)
Lemma magnitude_bound (m e T : Z) :
  0 < m -> 0 <= e + 1074 -> 0 <= T -> m * 2 ^ (e + 1074) <= 2 ^ T ->
  Zdigits2 m + e + 1074 <= T + 1.
Proof.
  intros Hm He HT Hle. destruct (Zdigits2_bounds m Hm) as (Hd & Hlo & _).
  assert (H : 2 ^ (Zdigits2 m - 1 + (e + 1074)) <= 2 ^ T).
  { rewrite pow2_add by lia. pose proof (pow2_pos (e + 1074) He). nia. }
  apply Z.pow_le_mono_r_iff in H; lia.
Qed.

(** Rounding the positive number [p * 2^ez]: the result is finite, within
    a relative error of 2^-52, and exact when [p] fits the format. *)
Lemma binary_round_units (p : positive) (ez : Z) :
  -1074 <= ez ->
  Z.pos p * 2 ^ (ez + 1074) <= 2 ^ 2074 ->
  exists (p' : positive) (e' : Z),
    binary_round prec emax false p ez = S754_finite false p' e'
    /\ -1074 <= e'
    /\ 2 ^ 52 * (Z.pos p' * 2 ^ (e' + 1074) - Z.pos p * 2 ^ (ez + 1074))
       <= Z.pos p * 2 ^ (ez + 1074)
    /\ 2 ^ 52 * (Z.pos p * 2 ^ (ez + 1074) - Z.pos p' * 2 ^ (e' + 1074))
       <= Z.pos p * 2 ^ (ez + 1074)
    /\ (fexp64 (Zdigits2 (Z.pos p) + ez) <= ez ->
        Z.pos p' * 2 ^ (e' + 1074) = Z.pos p * 2 ^ (ez + 1074)).
Proof.
  intros Hez Hbound.
  pose proof (magnitude_bound (Z.pos p) ez 2074 ltac:(lia) ltac:(lia) ltac:(lia) Hbound)
    as Hmag.
  destruct (Zdigits2_bounds (Z.pos p) ltac:(lia)) as (Hd & Hlo & Hhi).
  set (d := Zdigits2 (Z.pos p)) in *.
  pose proof (fexp64_eq (d + ez)) as Hfc. set (fc := fexp64 (d + ez)) in *.
  set (P := 2 ^ (ez + 1074)). assert (HP : 0 < P) by (apply pow2_pos; lia).
  unfold binary_round. change (Z.pos (digits2_pos p)) with (Zdigits2 (Z.pos p)).
  fold d. fold (fexp64 (d + ez)). fold fc.
  destruct (Z.lt_ge_cases fc ez) as [Hlt|Hge].
  - (* the mantissa is shifted left to the exponent of the format: exact *)
    destruct (shl_align_spec p ez fc ltac:(lia)) as [Hmz Hez'].
    destruct (shl_align p ez fc) as [mz ez']; cbn [fst snd] in *. subst ez'.
    assert (Hdz : Zdigits2 (Z.pos mz) + fc = d + ez).
    { rewrite Hmz, Zdigits2_shift by lia. fold d. lia. }
    destruct (binary_round_aux_spec (Z.pos mz) fc loc_Exact ltac:(lia))
      as (m3 & _ & Hexact & Hres).
    rewrite Hdz in Hexact, Hres. fold fc in Hexact, Hres.
    rewrite Z.max_id in Hres. specialize (Hexact eq_refl ltac:(lia)). subst m3.
    destruct Hres as [[H0 _]|(p' & e4 & He4 & Hp' & ->)]; [lia|].
    assert (E4 : (e4 <=? 971) = true) by (apply Z.leb_le; lia). rewrite E4.
    exists p', e4. split; [reflexivity|]. split; [lia|].
    assert (Hval : Z.pos p' * 2 ^ (e4 + 1074) = Z.pos p * P).
    { replace (e4 + 1074) with ((e4 - fc) + (fc + 1074)) by lia.
      rewrite (pow2_add (e4 - fc) (fc + 1074)), Z.mul_assoc, Hp', Hmz by lia.
      unfold P. replace (ez + 1074) with ((ez - fc) + (fc + 1074)) by lia.
      rewrite (pow2_add (ez - fc) (fc + 1074)) by lia. ring. }
    rewrite Hval. repeat split; try lia. all: rewrite Z.sub_diag, Z.mul_0_r; lia.
  - (* the mantissa is shifted right by [n] and rounded *)
    rewrite shl_align_id by lia.
    destruct (binary_round_aux_spec (Z.pos p) ez loc_Exact ltac:(lia))
      as (m3 & Hm3 & Hexact & Hres).
    fold d in Hm3, Hexact, Hres. fold fc in Hm3, Hexact, Hres.
    rewrite Z.max_r in Hm3, Hres by lia.
    set (n := fc - ez) in *. assert (Hn : 0 <= n) by lia.
    assert (Hpn : 0 < 2 ^ n) by now apply pow2_pos.
    pose proof (Z.div_mod (Z.pos p) (2 ^ n) ltac:(lia)) as Hdiv.
    pose proof (Z.mod_pos_bound (Z.pos p) (2 ^ n) Hpn) as Hmod.
    set (f := Z.pos p / 2 ^ n) in *.
    (* the error is below one unit of the last place, 2^n *)
    assert (Herr : 2 ^ 52 * (m3 * 2 ^ n - Z.pos p) <= Z.pos p
                   /\ 2 ^ 52 * (Z.pos p - m3 * 2 ^ n) <= Z.pos p
                   /\ (fc <= ez -> m3 * 2 ^ n = Z.pos p)
                   /\ 0 < m3).
    { destruct (Z.eq_dec n 0) as [Hn0|Hn0].
      - specialize (Hexact eq_refl ltac:(lia)). subst m3. rewrite Hn0, Z.pow_0_r.
        repeat split; lia.
      - assert (Hfcn : n = d - 53) by lia.
        assert (H52 : 2 ^ 52 * 2 ^ n <= Z.pos p).
        { rewrite <- (pow2_add 52 n) by lia. replace (52 + n) with (d - 1) by lia. lia. }
        assert (Hf : 2 ^ 52 <= f).
        { apply Z.div_le_lower_bound; lia. }
        change (2 ^ 52) with 4503599627370496 in *.
        repeat split; nia. }
    destruct Herr as (Hup & Hdown & Hex & Hm3pos).
    destruct Hres as [[H0 _]|(p' & e4 & He4 & Hp' & ->)]; [lia|].
    assert (E4 : (e4 <=? 971) = true) by (apply Z.leb_le; lia). rewrite E4.
    exists p', e4. split; [reflexivity|]. split; [lia|].
    assert (Hval : Z.pos p' * 2 ^ (e4 + 1074) = m3 * 2 ^ n * P).
    { replace (e4 + 1074) with ((e4 - fc) + (n + (ez + 1074))) by lia.
      rewrite (pow2_add (e4 - fc)), (pow2_add n (ez + 1074)), Z.mul_assoc, Hp' by lia.
      fold P. ring. }
    rewrite Hval. change (2 ^ 52) with 4503599627370496 in *.
    split; [nia|]. split; [nia|].
    intros Hle. rewrite (Hex Hle). reflexivity.
Qed.

Lemma valid_exponent (m : positive) (e : Z) :
  valid_binary (S754_finite false m e) = true -> -1074 <= e.
Proof.
  intros Hv. apply canonical_exponent in Hv.
  pose proof (fexp64_ge (Zdigits2 (Z.pos m) + e)). lia.
Qed.

(** Addition of two non-negative finite floats: within 2^-52 of the sum. *)
Lemma SFadd_units (x y : spec_float) :
  valid_binary x = true -> valid_binary y = true -> nonneg_finite x -> nonneg_finite y ->
  units x + units y <= 2 ^ 2074 ->
  nonneg_finite (SF64add x y)
  /\ 2 ^ 52 * (units (SF64add x y) - (units x + units y)) <= units x + units y
  /\ 2 ^ 52 * ((units x + units y) - units (SF64add x y)) <= units x + units y.
Proof.
  intros Vx Vy Fx Fy Hbound.
  destruct x as [sx|sx| |[] mx ex]; try contradiction;
    destruct y as [sy|sy| |[] my ey]; try contradiction.
  - (* zero and zero *)
    destruct sx, sy; simpl; repeat split; lia.
  - (* zero and finite *)
    pose proof (valid_exponent _ _ Vy). pose proof (pow2_pos (ey + 1074) ltac:(lia)).
    cbn [SF64add SFadd units nonneg_finite]. repeat split; nia.
  - (* finite and zero *)
    pose proof (valid_exponent _ _ Vx). pose proof (pow2_pos (ex + 1074) ltac:(lia)).
    cbn [SF64add SFadd units nonneg_finite]. repeat split; nia.
  - (* finite and finite *)
    pose proof (valid_exponent _ _ Vx) as Hex. pose proof (valid_exponent _ _ Vy) as Hey.
    unfold SF64add, SFadd. cbn [cond_Zopp units] in *.
    set (ez := Z.min ex ey) in *.
    destruct (shl_align_spec mx ex ez ltac:(lia)) as [HA _].
    destruct (shl_align_spec my ey ez ltac:(lia)) as [HB _].
    set (A := fst (shl_align mx ex ez)) in *. set (B := fst (shl_align my ey ez)) in *.
    clearbody A B.
    change (Z.pos A + Z.pos B) with (Z.pos (A + B)). cbn [binary_normalize].
    assert (HS : Z.pos mx * 2 ^ (ex + 1074) + Z.pos my * 2 ^ (ey + 1074)
                 = Z.pos (A + B) * 2 ^ (ez + 1074)).
    { rewrite Pos2Z.inj_add, HA, HB.
      replace (ex + 1074) with ((ex - ez) + (ez + 1074)) by lia.
      replace (ey + 1074) with ((ey - ez) + (ez + 1074)) by lia.
      rewrite (pow2_add (ex - ez) (ez + 1074)), (pow2_add (ey - ez) (ez + 1074)) by lia.
      ring. }
    rewrite HS in *.
    destruct (binary_round_units (A + B) ez ltac:(lia) Hbound)
      as (p' & e' & -> & He' & Hup & Hdown & _).
    cbn [units nonneg_finite]. repeat split; assumption.
Qed.

(** An int below 2^53 converts to a float of the same value. *)
Lemma binary_normalize_exact (n : Z) :
  0 < n < 2 ^ 53 ->
  exists (m : positive) (e : Z),
    binary_normalize prec emax n 0 false = S754_finite false m e
    /\ -1074 <= e
    /\ Z.pos m * 2 ^ (e + 1074) = n * 2 ^ 1074.
Proof.
  intros [Hn Hup]. destruct n as [|p|p]; try lia. cbn [binary_normalize].
  assert (Hd : Zdigits2 (Z.pos p) <= 53) by (apply Zdigits2_upper; lia).
  assert (Hb : Z.pos p * 2 ^ (0 + 1074) <= 2 ^ 2074).
  { change (2 ^ 2074) with (2 ^ 1000 * 2 ^ (0 + 1074)).
    apply Z.mul_le_mono_nonneg_r; [apply Z.pow_nonneg; lia|].
    apply Z.le_trans with (2 ^ 53); [lia|]. apply Z.pow_le_mono_r; lia. }
  destruct (binary_round_units p 0 ltac:(lia) Hb) as (m & e & Hr & He & _ & _ & Hex).
  exists m, e. split; [exact Hr|]. split; [exact He|].
  apply Hex. rewrite fexp64_eq. clear - Hd. lia.
Qed.

Lemma mul_le_cancel (a b k : Z) : 0 < k -> a * k <= b * k -> a <= b.
Proof. intros Hk H. now apply Z.mul_le_mono_pos_r in H. Qed.

Lemma mul_lt_cancel (a b k : Z) : 0 < k -> a * k < b * k -> a < b.
Proof. intros Hk H. now apply Z.mul_lt_mono_pos_r in H. Qed.

Lemma pow2_le_inv (a b : Z) : 0 <= a -> 2 ^ a <= 2 ^ b -> a <= b.
Proof.
  intros Ha H. destruct (Z.le_gt_cases a b) as [|Hgt]; [assumption|].
  destruct (Z.le_gt_cases 0 b) as [Hb|Hb].
  - apply (Z.pow_lt_mono_r 2) in Hgt; lia.
  - rewrite (Z.pow_neg_r 2 b) in H by lia. pose proof (pow2_pos a Ha). lia.
Qed.

(** Division of a non-negative finite float by a positive one of integer
    value n: the quotient times n is within 2^-52 of the dividend, or within
    n units of it. *)
Lemma SFdiv_units (x : spec_float) (my : positive) (ey n : Z) :
  valid_binary x = true -> nonneg_finite x -> units x <= 2 ^ 2074 ->
  0 < n -> -1074 <= ey -> Z.pos my * 2 ^ (ey + 1074) = n * 2 ^ 1074 ->
  nonneg_finite (SF64div x (S754_finite false my ey))
  /\ 2 ^ 52 * (n * units (SF64div x (S754_finite false my ey)) - units x)
     <= units x + 2 ^ 52 * n
  /\ 2 ^ 52 * (units x - n * units (SF64div x (S754_finite false my ey)))
     <= units x + 2 ^ 52 * n.
Proof.
  intros Vx Fx Hbound Hn Hey Hmy.
  destruct x as [sx|sx| |[] mx ex]; try contradiction.
  { destruct sx; cbn; repeat split; lia. }
  pose proof (valid_exponent _ _ Vx) as Hex. cbn [units] in *.
  unfold SF64div, SFdiv, SFdiv_core_binary. cbn [xorb].
  change (SpecFloat.fexp prec emax) with fexp64.
  set (d1 := Zdigits2 (Z.pos mx)). set (d2 := Zdigits2 (Z.pos my)).
  set (mag := d1 + ex - (d2 + ey)).
  set (e' := Z.min (fexp64 mag) (ex - ey)).
  set (s := ex - ey - e').
  assert (Hs : 0 <= s) by (subst s e'; lia).
  set (m' := match s with Z.pos _ => Z.shiftl (Z.pos mx) s | 0 => Z.pos mx | Z.neg _ => 0 end).
  assert (Hm' : m' = Z.pos mx * 2 ^ s).
  { subst m'. destruct s as [|ps|ps] eqn:Es; try lia.
    now rewrite Z.shiftl_mul_pow2 by lia. }
  clearbody m'.
  pose proof (Z_div_mod m' (Z.pos my) ltac:(lia)) as Hdm.
  destruct (Z.div_eucl m' (Z.pos my)) as [q r]. destruct Hdm as [Hdm Hr].
  assert (Hq : 0 <= q).
  { pose proof (pow2_pos s Hs). clear - Hdm Hr Hm' H. nia. }
  destruct (binary_round_aux_spec q e' (new_location (Z.pos my) r) Hq)
    as (m3 & Hm3 & _ & Hres).
  set (c := Z.max e' (fexp64 (Zdigits2 q + e'))) in *.
  pose proof (fexp64_ge (Zdigits2 q + e')) as [Hemin _].
  assert (Hce : e' <= c) by (subst c; lia).
  assert (Hc : -1074 <= c) by (subst c; lia).
  set (f := q / 2 ^ (c - e')) in *.
  pose proof (pow2_pos (c - e') ltac:(lia)) as Pn.
  pose proof (pow2_pos (c + 1074) ltac:(lia)) as Pc.
  pose proof (pow2_pos (ey + 1074) ltac:(lia)) as P1.
  pose proof (pow2_pos (ex + 1074) ltac:(lia)) as Px.
  pose proof (pow2_pos s Hs) as Ps.
  pose proof (pow2_pos 1074 ltac:(lia)) as P0.
  assert (Hf0 : 0 <= f) by (apply Z.div_pos; lia).
  assert (Hflo : f * 2 ^ (c - e') <= q).
  { subst f. rewrite Z.mul_comm. apply Z.mul_div_le. lia. }
  assert (Hfhi : q < (f + 1) * 2 ^ (c - e')).
  { subst f. rewrite Z.mul_comm. replace (q / 2 ^ (c - e') + 1) with (Z.succ (q / 2 ^ (c - e'))) by lia.
    apply Z.mul_succ_div_gt. lia. }
  (* the exponents agree *)
  assert (Hexp : 2 ^ s * 2 ^ (ey + 1074) * 2 ^ (c + 1074)
                 = 2 ^ (ex + 1074) * 2 ^ 1074 * 2 ^ (c - e')).
  { rewrite <- !pow2_add by lia. f_equal. subst s. lia. }
  set (X := Z.pos mx * 2 ^ (ex + 1074)) in *.
  assert (HX0 : 0 < X) by (subst X; lia).
  (* the quotient, in units *)
  assert (Hlow : n * f * 2 ^ (c + 1074) <= X).
  { apply (mul_le_cancel _ _ (2 ^ 1074 * 2 ^ (c - e'))); [lia|].
    assert (H1 : Z.pos my * (f * 2 ^ (c - e')) <= m').
    { clear - Hdm Hr Hflo. nia. }
    apply (Z.mul_le_mono_nonneg_r _ _ (2 ^ (ey + 1074) * 2 ^ (c + 1074))) in H1; [|lia].
    replace (n * f * 2 ^ (c + 1074) * (2 ^ 1074 * 2 ^ (c - e')))
      with (Z.pos my * (f * 2 ^ (c - e')) * (2 ^ (ey + 1074) * 2 ^ (c + 1074))).
    2:{ transitivity ((Z.pos my * 2 ^ (ey + 1074)) * f * 2 ^ (c - e') * 2 ^ (c + 1074)); [ring|].
        rewrite Hmy. ring. }
    replace (X * (2 ^ 1074 * 2 ^ (c - e')))
      with (m' * (2 ^ (ey + 1074) * 2 ^ (c + 1074))); [exact H1|].
    rewrite Hm'. subst X.
    transitivity (Z.pos mx * (2 ^ s * 2 ^ (ey + 1074) * 2 ^ (c + 1074))); [ring|].
    rewrite Hexp. ring. }
  assert (Hhigh : X < n * (f + 1) * 2 ^ (c + 1074)).
  { apply (mul_lt_cancel _ _ (2 ^ 1074 * 2 ^ (c - e'))); [lia|].
    assert (H1 : m' < Z.pos my * ((f + 1) * 2 ^ (c - e'))).
    { clear - Hdm Hr Hfhi. nia. }
    apply (Z.mul_lt_mono_pos_r (2 ^ (ey + 1074) * 2 ^ (c + 1074))) in H1; [|lia].
    replace (n * (f + 1) * 2 ^ (c + 1074) * (2 ^ 1074 * 2 ^ (c - e')))
      with (Z.pos my * ((f + 1) * 2 ^ (c - e')) * (2 ^ (ey + 1074) * 2 ^ (c + 1074))).
    2:{ transitivity ((Z.pos my * 2 ^ (ey + 1074)) * (f + 1) * 2 ^ (c - e') * 2 ^ (c + 1074)); [ring|].
        rewrite Hmy. ring. }
    replace (X * (2 ^ 1074 * 2 ^ (c - e')))
      with (m' * (2 ^ (ey + 1074) * 2 ^ (c + 1074))); [exact H1|].
    rewrite Hm'. subst X.
    transitivity (Z.pos mx * (2 ^ s * 2 ^ (ey + 1074) * 2 ^ (c + 1074))); [ring|].
    rewrite Hexp. ring. }
  (* a normal quotient has a full mantissa *)
  assert (Hfull : c = -1074 \/ 2 ^ 52 <= f).
  { destruct (Z.eq_dec c (-1074)) as [|Hne]; [now left|right].
    destruct (Z.le_gt_cases (fexp64 (Zdigits2 q + e')) e') as [Hno|Hshift].
    - (* no shift: the dividend was scaled for it *)
      assert (Ec : c = e') by (subst c; lia).
      subst f. rewrite Ec, Z.sub_diag, Z.pow_0_r, Z.div_1_r.
      assert (He'mag : e' <= mag - 53).
      { pose proof (fexp64_eq mag). subst e'. lia. }
      destruct (Zdigits2_bounds (Z.pos mx) ltac:(lia)) as (Hd1 & Hlo1 & _).
      destruct (Zdigits2_bounds (Z.pos my) ltac:(lia)) as (Hd2 & _ & Hhi2).
      fold d1 in Hd1, Hlo1. fold d2 in Hd2, Hhi2.
      assert (Hsd : d2 + 52 <= d1 - 1 + s) by (subst s mag; lia).
      assert (Hbig : 2 ^ (d2 + 52) <= m').
      { rewrite Hm'. apply Z.le_trans with (2 ^ (d1 - 1 + s)).
        - apply Z.pow_le_mono_r; lia.
        - rewrite pow2_add by lia. apply Z.mul_le_mono_nonneg_r; lia. }
      rewrite pow2_add in Hbig by lia.
      assert (Hq52 : Z.pos my * 2 ^ 52 <= m').
      { pose proof (pow2_pos 52 ltac:(lia)). clear - Hbig Hhi2 H. nia. }
      clear - Hq52 Hdm Hr. nia.
    - (* shift: the quotient keeps 53 digits *)
      assert (Ec : c = fexp64 (Zdigits2 q + e')) by (subst c; lia).
      assert (Hq0 : 0 < q).
      { destruct (Z.eq_dec q 0) as [->|]; [|lia]. exfalso.
        rewrite Zdigits2_0, fexp64_eq in Hshift, Ec. lia. }
      destruct (Zdigits2_bounds q Hq0) as (Hdq & Hloq & _).
      assert (Ec' : c - e' = Zdigits2 q - 53) by (rewrite fexp64_eq in Ec; lia).
      subst f. apply Z.div_le_lower_bound; [lia|].
      rewrite Ec'. rewrite <- pow2_add by lia.
      replace (Zdigits2 q - 53 + 52) with (Zdigits2 q - 1) by lia. exact Hloq. }
  assert (Hcmax : c <= 948).
  { destruct Hfull as [->|Hfull]; [lia|].
    assert (H : 2 ^ (52 + (c + 1074)) <= 2 ^ 2074).
    { rewrite pow2_add by lia. apply Z.le_trans with X; [|exact Hbound].
      apply Z.le_trans with (n * f * 2 ^ (c + 1074)); [|exact Hlow].
      apply Z.mul_le_mono_nonneg_r; [lia|]. clear - Hn Hfull. nia. }
    apply pow2_le_inv in H; lia. }
  assert (Hstep : 2 ^ 52 * (n * 2 ^ (c + 1074)) <= X + 2 ^ 52 * n).
  { destruct Hfull as [->|Hfull]; [change (2 ^ (-1074 + 1074)) with 1; lia|].
    apply Z.le_trans with X; [|lia].
    apply Z.le_trans with (n * f * 2 ^ (c + 1074)); [|exact Hlow].
    clear - Hn Hfull Pc. nia. }
  destruct Hres as [[H0 ->]|(p & e4 & He4 & Hp & ->)].
  - cbn [nonneg_finite units]. split; [exact I|].
    assert (f = 0) by lia. subst m3.
    clear - Hhigh Hstep H HX0 Hn. rewrite H in Hhigh. split; lia.
  - assert (E4 : (e4 <=? 971) = true) by (apply Z.leb_le; lia).
    rewrite E4. cbn [nonneg_finite units]. split; [exact I|].
    assert (HU : Z.pos p * 2 ^ (e4 + 1074) = m3 * 2 ^ (c + 1074)).
    { rewrite <- Hp. replace (e4 + 1074) with ((e4 - c) + (c + 1074)) by lia.
      rewrite pow2_add by lia. ring. }
    rewrite HU. clear - Hlow Hhigh Hstep Hm3 Pc Hn. split; nia.
Qed.

(** *** On primitive floats *)

Lemma units_nonneg (f : spec_float) : 0 <= units f.
Proof.
  destruct f as [| | |[] m e]; cbn [units]; lia.
Qed.

Lemma ulps_nonneg (x : float) : 0 <= ulps x.
Proof. apply units_nonneg. Qed.

Lemma add_ulps (x y : float) :
  finite_nonneg x -> finite_nonneg y -> ulps x + ulps y <= 2 ^ 2074 ->
  finite_nonneg (x + y)
  /\ 2 ^ 52 * (ulps (x + y) - (ulps x + ulps y)) <= ulps x + ulps y
  /\ 2 ^ 52 * ((ulps x + ulps y) - ulps (x + y)) <= ulps x + ulps y.
Proof.
  unfold finite_nonneg, ulps. rewrite FloatAxioms.add_spec.
  apply SFadd_units; apply Prim2SF_valid.
Qed.

Lemma div_ulps (x : float) (n : Z) :
  finite_nonneg x -> ulps x <= 2 ^ 2074 -> 0 < n < 2 ^ 53 ->
  finite_nonneg (x / float_of_int n)
  /\ 2 ^ 52 * (n * ulps (x / float_of_int n) - ulps x) <= ulps x + 2 ^ 52 * n
  /\ 2 ^ 52 * (ulps x - n * ulps (x / float_of_int n)) <= ulps x + 2 ^ 52 * n.
Proof.
  unfold finite_nonneg, ulps. intros Fx Hx Hn. rewrite FloatAxioms.div_spec.
  unfold float_of_int. destruct (Z.ltb_spec n 0) as [|_]; [lia|].
  assert (Hw : 0 <= n < wB).
  { change wB with (2 ^ 63). split; [lia|].
    apply Z.lt_trans with (2 ^ 53); [lia|reflexivity]. }
  rewrite FloatAxioms.of_uint63_spec, Uint63.of_Z_spec, Z.mod_small by exact Hw.
  destruct (binary_normalize_exact n Hn) as (m & e & -> & He & Hm).
  apply SFdiv_units; try assumption; try lia. apply Prim2SF_valid.
Qed.

(** The order of the floats is that of their values. *)
Lemma valid_mantissa (m : positive) (e : Z) :
  valid_binary (S754_finite false m e) = true ->
  Z.pos m < 2 ^ 53 /\ (-1074 < e -> 2 ^ 52 <= Z.pos m).
Proof.
  intros Hv. apply canonical_exponent in Hv. rewrite fexp64_eq in Hv.
  destruct (Zdigits2_bounds (Z.pos m) ltac:(lia)) as (Hd & Hlo & Hhi). split.
  - apply Z.lt_le_trans with (2 ^ Zdigits2 (Z.pos m)); [exact Hhi|].
    apply Z.pow_le_mono_r; lia.
  - intros He. replace 52 with (Zdigits2 (Z.pos m) - 1) by lia. exact Hlo.
Qed.

Lemma SFleb_units (x y : spec_float) :
  valid_binary x = true -> valid_binary y = true -> nonneg_finite x -> nonneg_finite y ->
  SFleb x y = true -> units x <= units y.
Proof.
  intros Vx Vy Fx Fy Hle.
  destruct x as [sx|sx| |[] mx ex]; try contradiction;
    [apply units_nonneg|].
  destruct y as [sy|sy| |[] my ey]; try contradiction; [discriminate Hle|].
  pose proof (valid_exponent _ _ Vx) as Hex. pose proof (valid_exponent _ _ Vy) as Hey.
  destruct (valid_mantissa _ _ Vx) as [Hx53 _].
  destruct (valid_mantissa _ _ Vy) as [_ Hy52].
  cbn [units]. revert Hle. unfold SFleb, SFcompare.
  change (Pos.compare_cont Eq mx my) with (mx ?= my)%positive.
  destruct (Z.compare_spec ex ey) as [->|Hlt|Hgt]; [| |discriminate].
  - destruct (Pos.compare_spec mx my) as [->|Hm|Hm]; [| |discriminate]; intros _.
    + lia.
    + apply Z.mul_le_mono_nonneg_r; [apply Z.pow_nonneg; lia|lia].
  - intros _. specialize (Hy52 ltac:(lia)).
    apply Z.le_trans with (2 ^ 53 * 2 ^ (ex + 1074)).
    + apply Z.mul_le_mono_nonneg_r; [apply Z.pow_nonneg; lia|lia].
    + apply Z.le_trans with (2 ^ 52 * 2 ^ (ey + 1074)).
      * rewrite <- !pow2_add by lia. apply Z.pow_le_mono_r; lia.
      * apply Z.mul_le_mono_nonneg_r; [apply Z.pow_nonneg; lia|lia].
Qed.

Lemma leb_ulps (x y : float) :
  finite_nonneg x -> finite_nonneg y -> (x <=? y)%float = true -> ulps x <= ulps y.
Proof.
  unfold finite_nonneg, ulps. rewrite FloatAxioms.leb_spec.
  apply SFleb_units; apply Prim2SF_valid.
Qed.

Lemma SFleb_of_units (x y : spec_float) :
  valid_binary x = true -> valid_binary y = true -> nonneg_finite x -> nonneg_finite y ->
  units x <= units y -> SFleb x y = true.
Proof.
  intros Vx Vy Fx Fy Hle.
  destruct x as [sx|sx| |[] mx ex]; try contradiction;
    destruct y as [sy|sy| |[] my ey]; try contradiction; try reflexivity.
  - pose proof (valid_exponent _ _ Vx) as Hex. cbn [units] in Hle.
    pose proof (pow2_pos (ex + 1074) ltac:(lia)). lia.
  - pose proof (valid_exponent _ _ Vx) as Hex. pose proof (valid_exponent _ _ Vy) as Hey.
    destruct (valid_mantissa _ _ Vx) as [_ Hx52].
    destruct (valid_mantissa _ _ Vy) as [Hy53 _].
    cbn [units] in Hle. unfold SFleb, SFcompare.
    change (Pos.compare_cont Eq mx my) with (mx ?= my)%positive.
    destruct (Z.compare_spec ex ey) as [->|Hlt|Hgt]; [|reflexivity|].
    + destruct (Pos.compare_spec mx my) as [->|Hm|Hm]; try reflexivity.
      exfalso. pose proof (pow2_pos (ey + 1074) ltac:(lia)) as Hp. clear - Hle Hm Hp. nia.
    + exfalso. specialize (Hx52 ltac:(lia)).
      assert (H1 : Z.pos my * 2 ^ (ey + 1074) < 2 ^ 53 * 2 ^ (ey + 1074)).
      { apply Z.mul_lt_mono_pos_r; [apply pow2_pos|]; lia. }
      assert (H2 : 2 ^ 53 * 2 ^ (ey + 1074) <= 2 ^ 52 * 2 ^ (ex + 1074)).
      { rewrite <- !pow2_add by lia. apply Z.pow_le_mono_r; lia. }
      assert (H3 : 2 ^ 52 * 2 ^ (ex + 1074) <= Z.pos mx * 2 ^ (ex + 1074)).
      { apply Z.mul_le_mono_nonneg_r; [apply Z.pow_nonneg; lia|lia]. }
      lia.
Qed.

(** The order of the floats that are finite and not negative is the order
    of their numbers of units. *)
Lemma leb_ulps_iff (x y : float) :
  finite_nonneg x -> finite_nonneg y -> (x <=? y)%float = true <-> ulps x <= ulps y.
Proof.
  unfold finite_nonneg, ulps. rewrite FloatAxioms.leb_spec. intros Fx Fy. split.
  - apply SFleb_units; auto using Prim2SF_valid.
  - apply SFleb_of_units; auto using Prim2SF_valid.
Qed.

(** A float between zero and a finite float is finite. *)
Lemma between_finite (x y : float) :
  (0 <=? x)%float = true -> (x <=? y)%float = true -> finite_nonneg y ->
  finite_nonneg x.
Proof.
  unfold finite_nonneg. rewrite !FloatAxioms.leb_spec.
  change (Prim2SF 0) with (S754_zero false).
  destruct (Prim2SF x) as [sx|[]| |[] mx ex]; destruct (Prim2SF y) as [sy|[]| |[] my ey];
    simpl; intros; try exact I; try discriminate; try contradiction.
Qed.

End Rounding.

(** *** The loops, with their rounding *)

(** [within_rounding B i t a]: the float [t] is finite and within [i * B / 2^51] units
    of the integer [a]. In the loop, [t] is [current_time] after [i]
    additions and [a] is the sum of the same durations without rounding. *)
Definition within_rounding (B i : Z) (t : float) (a : Z) : Prop :=
  finite_nonneg t
  /\ 2 ^ 51 * (ulps t - a) <= i * B
  /\ 2 ^ 51 * (a - ulps t) <= i * B.

(** The number of entries the words get, and the sum of their durations
    without the rounding of the additions. *)
Definition entry_count (words : list string) : Z :=
  fold_right (fun w acc => len (visemes_of w) + acc) 0 words.

Definition unrounded_sum (tpw : float) (words : list string) : Z :=
  fold_right (fun w acc => len (visemes_of w) * ulps (viseme_duration_of tpw w) + acc)
    0 words.

Lemma len_cons {A} (x : A) (l : list A) : len (x :: l) = 1 + len l.
Proof. unfold len. simpl length. lia. Qed.

Lemma len_nonneg {A} (l : list A) : 0 <= len l.
Proof. unfold len. lia. Qed.

Lemma within_rounding_add (B i : Z) (t d : float) (a : Z) :
  0 <= B -> 2 * B <= 2 ^ 2074 -> 0 <= i < 2 ^ 51 ->
  finite_nonneg d -> within_rounding B i t a -> 0 <= a -> a + ulps d <= B ->
  within_rounding B (i + 1) (t + d) (a + ulps d).
Proof.
  intros HB HB2 Hi Fd (Ft & Hup & Hdown) Ha HaB.
  pose proof (Rounding.ulps_nonneg t) as Ht0. pose proof (Rounding.ulps_nonneg d) as Hd0.
  assert (HiB : i * B <= 2 ^ 51 * B) by (apply Z.mul_le_mono_nonneg_r; lia).
  assert (Hsum : ulps t + ulps d <= 2 ^ 2074) by lia.
  destruct (Rounding.add_ulps t d Ft Fd Hsum) as (Fs & Hsu & Hsd).
  split; [exact Fs|].
  set (u' := ulps (t + d)%float) in *. set (ut := ulps t) in *. set (ud := ulps d) in *.
  set (x := i * B) in *.
  replace ((i + 1) * B) with (x + B) by (subst x; ring).
  clearbody u' ut ud x. clear - HB Hup Hdown HaB HiB Hsu Hsd Ha Ht0 Hd0.
  split; lia.
Qed.

Lemma append_viseme_within_rounding (B : Z) (d : float) :
  0 <= B -> 2 * B <= 2 ^ 2074 -> finite_nonneg d ->
  forall (ids : list Z) (st : list (Entry float) * float) (a i : Z),
    0 <= a -> 0 <= i -> within_rounding B i (snd st) a ->
    a + len ids * ulps d <= B -> i + len ids <= 2 ^ 51 ->
    within_rounding B (i + len ids) (snd (fold_left (append_viseme d) ids st)) (a + len ids * ulps d).
Proof.
  intros HB HB2 Fd ids.
  induction ids as [|id ids IH]; intros [es t] a i Ha Hi Hc HaB Hn; simpl fold_left.
  - unfold len; simpl. now rewrite Z.add_0_r, Z.add_0_r.
  - rewrite len_cons in *. pose proof (len_nonneg ids) as Hl.
    pose proof (Rounding.ulps_nonneg d) as Hd0.
    assert (Hprod : 0 <= len ids * ulps d) by (apply Z.mul_nonneg_nonneg; lia).
    replace (i + (1 + len ids)) with ((i + 1) + len ids) by lia.
    replace (a + (1 + len ids) * ulps d) with ((a + ulps d) + len ids * ulps d) by ring.
    apply IH; try lia.
    simpl snd in *. apply within_rounding_add; try assumption; lia.
Qed.

Lemma entry_count_cons (w : string) (words : list string) :
  entry_count (w :: words) = len (visemes_of w) + entry_count words.
Proof. reflexivity. Qed.

Lemma unrounded_sum_cons (tpw : float) (w : string) (words : list string) :
  unrounded_sum tpw (w :: words)
  = len (visemes_of w) * ulps (viseme_duration_of tpw w) + unrounded_sum tpw words.
Proof. reflexivity. Qed.

Lemma entry_count_nonneg (words : list string) : 0 <= entry_count words.
Proof.
  induction words as [|w words IH]; [reflexivity|]. rewrite entry_count_cons.
  pose proof (len_nonneg (visemes_of w)). lia.
Qed.

Lemma unrounded_sum_nonneg (tpw : float) (words : list string) : 0 <= unrounded_sum tpw words.
Proof.
  induction words as [|w words IH]; [reflexivity|]. rewrite unrounded_sum_cons.
  pose proof (len_nonneg (visemes_of w)).
  pose proof (Rounding.ulps_nonneg (viseme_duration_of tpw w)).
  assert (0 <= len (visemes_of w) * ulps (viseme_duration_of tpw w))
    by (apply Z.mul_nonneg_nonneg; lia).
  lia.
Qed.

Lemma lay_words_within_rounding (B : Z) (tpw : float) :
  0 <= B -> 2 * B <= 2 ^ 2074 ->
  forall (words : list string) (st : list (Entry float) * float) (a i : Z),
    Forall (fun w => finite_nonneg (viseme_duration_of tpw w)) words ->
    0 <= a -> 0 <= i -> within_rounding B i (snd st) a ->
    a + unrounded_sum tpw words <= B -> i + entry_count words <= 2 ^ 51 ->
    within_rounding B (i + entry_count words) (snd (lay_words tpw st words)) (a + unrounded_sum tpw words).
Proof.
  intros HB HB2 words. unfold lay_words.
  induction words as [|w words IH]; intros st a i Hfin Ha Hi Hc HaB Hn.
  - change (entry_count []) with 0. change (unrounded_sum tpw []) with 0.
    now rewrite !Z.add_0_r.
  - cbn [fold_left]. rewrite entry_count_cons, unrounded_sum_cons in *.
    inversion Hfin as [|? ? Hw Hwords]; subst.
    pose proof (entry_count_nonneg words) as Hc0. pose proof (unrounded_sum_nonneg tpw words) as Ht0.
    pose proof (len_nonneg (visemes_of w)) as Hl.
    pose proof (Rounding.ulps_nonneg (viseme_duration_of tpw w)) as Hd0.
    assert (Hprod : 0 <= len (visemes_of w) * ulps (viseme_duration_of tpw w))
      by (apply Z.mul_nonneg_nonneg; lia).
    rewrite !Z.add_assoc. apply IH; try assumption; try lia.
    unfold lay_word. apply append_viseme_within_rounding; try assumption; lia.
Qed.

Lemma append_viseme_count (d : float) (ids : list Z) :
  forall st, len (fst (fold_left (append_viseme d) ids st)) = len (fst st) + len ids.
Proof.
  induction ids as [|id ids IH]; intros [es t]; simpl fold_left.
  - unfold len; simpl. lia.
  - rewrite IH, len_cons. unfold len. simpl. rewrite length_app. simpl. lia.
Qed.

Lemma lay_words_count (tpw : float) (words : list string) :
  forall st, len (fst (lay_words tpw st words)) = len (fst st) + entry_count words.
Proof.
  unfold lay_words. induction words as [|w words IH]; intros st.
  - change (entry_count []) with 0. simpl. lia.
  - cbn [fold_left]. rewrite IH, entry_count_cons. unfold lay_word.
    rewrite append_viseme_count. lia.
Qed.

Lemma visemes_of_len_pos (w : string) : 0 < len (visemes_of w).
Proof. apply len_pos, visemes_of_nonempty. Qed.

Lemma entry_count_each (words : list string) :
  len words <= entry_count words
  /\ Forall (fun w => len (visemes_of w) <= entry_count words) words.
Proof.
  induction words as [|w words [IHn IHw]]; [split; [reflexivity|constructor]|].
  rewrite entry_count_cons, len_cons. pose proof (visemes_of_len_pos w) as Hw.
  pose proof (entry_count_nonneg words) as Hc. split; [lia|]. constructor; [lia|].
  eapply Forall_impl; [exact IHw|]. simpl. intros; lia.
Qed.

(** The durations of the words without the rounding of the additions: each
    word gets [tpw] up to the rounding of its division. *)
Lemma unrounded_sum_bound (tpw : float) (words : list string) :
  finite_nonneg tpw -> ulps tpw <= 2 ^ 2074 ->
  Forall (fun w => len (visemes_of w) < 2 ^ 53) words ->
  Forall (fun w => finite_nonneg (viseme_duration_of tpw w)) words
  /\ 2 ^ 52 * (unrounded_sum tpw words - len words * ulps tpw)
     <= len words * ulps tpw + 2 ^ 52 * entry_count words
  /\ 2 ^ 52 * (len words * ulps tpw - unrounded_sum tpw words)
     <= len words * ulps tpw + 2 ^ 52 * entry_count words.
Proof.
  intros Ft Ht. induction 1 as [|w words Hw Hwords (IHf & IHu & IHd)].
  - split; [constructor|]. split; reflexivity.
  - pose proof (visemes_of_len_pos w) as Hpos.
    assert (Hdiv : viseme_duration_of tpw w
                   = (tpw / float_of_int (len (visemes_of w)))%float).
    { unfold viseme_duration_of. rewrite Z.max_l by lia. reflexivity. }
    destruct (Rounding.div_ulps tpw (len (visemes_of w)) Ft Ht ltac:(lia)) as (Fd & Hu & Hd).
    rewrite <- Hdiv in Fd, Hu, Hd.
    split; [constructor; assumption|].
    rewrite unrounded_sum_cons, entry_count_cons, len_cons.
    set (x := len (visemes_of w) * ulps (viseme_duration_of tpw w)) in *.
    set (T := ulps tpw) in *. set (NT := len words * T) in *.
    replace ((1 + len words) * T) with (T + NT) by (subst NT; ring).
    clearbody x NT T. clear - Hu Hd IHu IHd. split; lia.
Qed.

(** The sum of the durations, in binary64: within [(n + 1) * 2^-50] of the
    duration of the audio, relatively, and [4 n] units, for [n] entries. *)
Lemma lay_words_bound (text : string) (D : float) :
  (0 <=? D)%float = true -> (D <=? 0x1p996)%float = true ->
  split (lower text) <> [] ->
  len (fst (lay_words (time_per_word_of text D) ([], 0%float) (split (lower text))))
    <= 2 ^ 49 ->
  finite_nonneg (snd (lay_words (time_per_word_of text D) ([], 0%float) (split (lower text))))
  /\ 2 ^ 50 * Z.abs (ulps (snd (lay_words (time_per_word_of text D) ([], 0%float)
                                  (split (lower text)))) - ulps D)
     <= (len (fst (lay_words (time_per_word_of text D) ([], 0%float) (split (lower text))))
         + 1) * ulps D
        + 2 ^ 52 * len (fst (lay_words (time_per_word_of text D) ([], 0%float)
                               (split (lower text)))).
Proof.
  intros H0 Hmax Hwords. rewrite lay_words_count. change (len []) with 0. rewrite Z.add_0_l.
  set (words := split (lower text)) in *. intros HK.
  assert (FD : finite_nonneg D) by (apply (Rounding.between_finite D 0x1p996); [assumption..|exact I]).
  assert (HD : ulps D <= 2 ^ 2070).
  { change (2 ^ 2070) with (ulps 0x1p996). apply Rounding.leb_ulps; [exact FD|exact I|exact Hmax]. }
  pose proof (Rounding.ulps_nonneg D) as HD0.
  pose proof (len_pos _ Hwords) as HN.
  destruct (entry_count_each words) as [HNK Heach].
  (* the time of a word *)
  assert (Htpw : time_per_word_of text D = (D / float_of_int (len words))%float).
  { unfold time_per_word_of. fold words. rewrite Z.max_l by lia. reflexivity. }
  rewrite Htpw. set (tpw := (D / float_of_int (len words))%float).
  destruct (Rounding.div_ulps D (len words) FD ltac:(lia) ltac:(lia)) as (Ft & Htu & Htd).
  fold tpw in Ft, Htu, Htd. pose proof (Rounding.ulps_nonneg tpw) as HT0.
  assert (HTN : ulps tpw <= len words * ulps tpw).
  { rewrite <- (Z.mul_1_l (ulps tpw)) at 1. apply Z.mul_le_mono_nonneg_r; lia. }
  assert (HT : ulps tpw <= 2 ^ 2074) by lia.
  (* the durations of the entries *)
  destruct (unrounded_sum_bound tpw words Ft HT) as (Hfin & Hau & Had).
  { eapply Forall_impl; [exact Heach|]. simpl. intros w Hw. lia. }
  pose proof (unrounded_sum_nonneg tpw words) as HA0. pose proof (entry_count_nonneg words) as HK0.
  (* their sum, with the rounding of each addition *)
  set (B := 2 * ulps D + 3 * entry_count words).
  assert (HB : unrounded_sum tpw words <= B) by (subst B; lia).
  destruct (lay_words_within_rounding B tpw ltac:(lia) ltac:(subst B; lia) words ([], 0%float) 0 0
              Hfin ltac:(lia) ltac:(lia)) as (Fs & Hsu & Hsd).
  { split; [exact I|]. cbn [snd]. change (ulps 0) with 0. split; lia. }
  { lia. }
  { lia. }
  rewrite !Z.add_0_l in *. split; [exact Fs|].
  set (t := ulps (snd (lay_words tpw ([], 0%float) words))) in *.
  assert (HKK : entry_count words * entry_count words <= 2 ^ 49 * entry_count words)
    by (apply Z.mul_le_mono_nonneg_r; lia).
  subst B. rewrite Z.mul_add_distr_l in Hsu, Hsd.
  rewrite !Z.mul_assoc, (Z.mul_comm (entry_count words) 2), (Z.mul_comm (entry_count words) 3),
    <- !Z.mul_assoc in Hsu, Hsd.
  rewrite Z.mul_add_distr_r, Z.mul_1_l.
  set (KD := entry_count words * ulps D) in *. set (KK := entry_count words * entry_count words) in *.
  set (NT := len words * ulps tpw) in *. set (A := unrounded_sum tpw words) in *.
  set (K := entry_count words) in *. set (N := len words) in *. set (UD := ulps D) in *.
  clearbody KD KK NT A K N UD t.
  clear - Hsu Hsd Hau Had Htu Htd HKK HNK HK HD0 HK0 HN.
  lia.
Qed.

(** ** The tables *)

Lemma fold_insert_lookup (items : list (string * Z)) (k : string) (v : Z) :
  forall d : gmap string Z,
    fold_left (fun d kv => <[kv.1 := kv.2]> d) items d !! k = Some v ->
    In (k, v) items \/ d !! k = Some v.
Proof.
  induction items as [|[k' v'] items IH]; intros d Hk; simpl in *.
  - now right.
  - destruct (IH _ Hk) as [Hin|Hd]; [left; now right|].
    apply lookup_insert_Some in Hd as [[-> ->]|[_ Hd]]; [left; now left|now right].
Qed.

(** An item found in a dict display is one that was written in it. *)
Lemma dict_lookup_In (items : list (string * Z)) (k : string) (v : Z) :
  dict items !! k = Some v -> In (k, v) items.
Proof.
  intros Hk. apply fold_insert_lookup in Hk as [Hin|Hd]; [assumption|].
  now rewrite lookup_empty in Hd.
Qed.

Lemma dict_values (P : Z -> Prop) (items : list (string * Z)) :
  Forall (fun kv => P kv.2) items ->
  map_Forall (fun _ v => P v) (dict items).
Proof.
  intros Hitems k v Hk. apply dict_lookup_In in Hk.
  rewrite List.Forall_forall in Hitems. exact (Hitems _ Hk).
Qed.

Lemma letter_of_char (c : ascii) : In (letter_of (String c EmptyString)) letter_visemes.
Proof.
  unfold letter_of, get.
  destruct (letter_to_viseme !! String c EmptyString) as [v|] eqn:E; [|now left].
  apply dict_lookup_In in E. simpl in E.
  repeat (destruct E as [E|E];
          [first [discriminate E
                 | injection E as _ <-; unfold letter_visemes; simpl; tauto]|]).
  contradiction.
Qed.

Lemma visemes_of_letters (word : string) (id : Z) :
  In id (visemes_of word) -> In id letter_visemes.
Proof.
  unfold visemes_of. destruct (chars word) as [|ch cs] eqn:E.
  - intros [<-|[]]. now left.
  - rewrite <- E. intros Hin. apply in_map_iff in Hin as (char & <- & Hchar).
    apply chars_single in Hchar as [c ->]. apply letter_of_char.
Qed.

(** * The properties of the timeline *)

Example ex_split : split (lower "  Hello   big World ") = ["hello"; "big"; "world"].
Proof. reflexivity. Qed.

Example ex_strip : strip "  a b  " = "a b".
Proof. reflexivity. Qed.

(** Scenario A of the specification, in binary64. *)
Example ex_hi :
  generate_viseme_sequence "hi" 2.0%float
  = Ok [mkEntry 7 0.0%float 1.0%float; mkEntry 11 1.0%float 1.0%float].
Proof. vm_compute. reflexivity. Qed.

(** In binary64 the durations add up to the duration of the audio only up to
    rounding: ten words over one second last [0.1] each, and ten times [0.1]
    is one unit in the last place below [1.0]. *)
Example ex_rounding :
  exists es : list (Entry float),
    generate_viseme_sequence "a a a a a a a a a a" 1.0%float = Ok es
    /\ sum_durations es = 0x1.fffffffffffffp-1%float
    /\ (sum_durations es <? 1.0)%float = true.
Proof. eexists. split; [vm_compute; reflexivity|]. split; vm_compute; reflexivity. Qed.

(** In exact arithmetic the durations add up to the duration of the audio
    when the text has a word, and to [0] when it has none: the distance
    between the sum and the duration, in binary64, is all rounding. *)
Lemma durations_cover_exact (text : string) (D : Q) :
  exists es : list (Entry Q),
    generate_viseme_sequence text D = Ok es
    /\ (split (lower text) <> [] -> (sum_durations es == D)%Q)
    /\ (split (lower text) = [] -> sum_durations es = 0%Q).
Proof.
  eexists. split; [apply generate_viseme_sequence_Ok|]. split; intros Hw.
  - rewrite lay_words_sum, lay_words_time. simpl snd.
    rewrite time_per_word_total by assumption. apply Qplus_0_l.
  - rewrite Hw. reflexivity.
Qed.

(** C1, as the specification states it, fails in binary64, where no
    tolerance relative to the duration covers every [D >= 0]. For the
    smallest positive float, [2^-1074], the two words of ["a b"] get half
    of it each, which rounds to [0.0]: both durations are [0.0] and so is
    their sum. For the largest float the three words of ["a b c"] get
    durations whose sum overflows to infinity. *)
Lemma durations_lost_to_rounding :
  (0 <? 0x1p-1074)%float = true
  /\ generate_viseme_sequence "a b" 0x1p-1074%float
     = Ok [mkEntry 8 0%float 0%float; mkEntry 1 0%float 0%float]
  /\ sum_durations [mkEntry 8 0%float 0%float; mkEntry 1 0%float 0%float] = 0%float
  /\ (exists es : list (Entry float),
        generate_viseme_sequence "a b c" 0x1.fffffffffffffp1023%float = Ok es
        /\ sum_durations es = infinity).
Proof.
  split; [reflexivity|]. split; [vm_compute; reflexivity|].
  split; [vm_compute; reflexivity|].
  eexists. split; vm_compute; reflexivity.
Qed.

(** Between the two, rounding can add up to a half more: the three entries
    of ["abc"] over [2^-1073], two units, last one unit each. *)
Example ex_rounding_up :
  exists es : list (Entry float),
    generate_viseme_sequence "abc" 0x1p-1073%float = Ok es
    /\ ulps 0x1p-1073 = 2
    /\ ulps (sum_durations es) = 3.
Proof. eexists. split; [vm_compute; reflexivity|]. split; vm_compute; reflexivity. Qed.

(** C1, amended: in binary64, for every text and every duration [D] with
    [0 <= D <= 2^996], the call returns entries [es] such that, when the
    text has at least one word and [n = len(es)] is at most [2^49], the sum
    [S] of the durations, added from the left as [sum] does, is finite and
    not negative and

      [|S - D| <= (n + 1) * 2^-50 * D + 4 * n * 2^-1074].

    The bound is stated in units of [2^-1074] and multiplied by [2^50]. The
    first term is the tolerance relative to the duration; the second, a few
    times the smallest float for each entry, is what is left of the
    quotients that underflow. For fewer than [2^20] entries, a million, and
    [D >= 2^-1000] the sum is within [1e-9] of [D], relatively. When the
    text has no word the sum is [0.0]. *)
Theorem durations_within_rounding (text : string) (D : float) :
  (0 <=? D)%float = true ->
  (D <=? 0x1p996)%float = true ->
  exists es : list (Entry float),
    generate_viseme_sequence text D = Ok es
    /\ (split (lower text) <> [] -> len es <= 2 ^ 49 ->
        finite_nonneg (sum_durations es)
        /\ 2 ^ 50 * Z.abs (ulps (sum_durations es) - ulps D)
           <= (len es + 1) * ulps D + 2 ^ 52 * len es
        /\ (len es < 2 ^ 20 -> (0x1p-1000 <=? D)%float = true ->
            10 ^ 9 * Z.abs (ulps (sum_durations es) - ulps D) <= ulps D))
    /\ (split (lower text) = [] -> sum_durations es = 0%float).
Proof.
  intros H0 Hmax. eexists. split; [apply generate_viseme_sequence_Ok|]. split.
  - intros Hwords Hlen. rewrite lay_words_sum.
    destruct (lay_words_bound text D H0 Hmax Hwords Hlen) as [Hfin Hbound].
    split; [exact Hfin|]. split; [exact Hbound|].
    intros Hsmall Hmin.
    assert (HD : 2 ^ 74 <= ulps D).
    { change (2 ^ 74) with (ulps 0x1p-1000).
      apply Rounding.leb_ulps; [exact I| |exact Hmin].
      apply (Rounding.between_finite D 0x1p996); [assumption..|exact I]. }
    change (@fzero float binary64) with 0%float in *.
    set (n := len (fst (lay_words (time_per_word_of text D) ([], 0%float)
                          (split (lower text))))) in *.
    assert (Hn : 0 <= n) by (subst n; unfold len; lia).
    assert (HnD : (n + 1) * ulps D <= 2 ^ 20 * ulps D)
      by (apply Z.mul_le_mono_nonneg_r; lia).
    set (x := (n + 1) * ulps D) in *. clearbody x n. clear - Hbound HD Hsmall HnD Hn.
    lia.
  - intros Hw. rewrite Hw. reflexivity.
Qed.

Lemma durations_within_rounding_witness :
  exists es : list (Entry float),
    generate_viseme_sequence "a a a a a a a a a a" 1%float = Ok es
    /\ len es = 10
    /\ finite_nonneg (sum_durations es)
    /\ 2 ^ 50 * Z.abs (ulps (sum_durations es) - ulps 1) <= 11 * ulps 1 + 2 ^ 52 * 10
    /\ 10 ^ 9 * Z.abs (ulps (sum_durations es) - ulps 1) <= ulps 1.
Proof.
  destruct (durations_within_rounding "a a a a a a a a a a" 1%float)
    as (es & Hes & Hbound & _); [reflexivity|reflexivity|].
  exists es. split; [exact Hes|].
  assert (Hn : len es = 10).
  { vm_compute in Hes. injection Hes as <-. reflexivity. }
  split; [exact Hn|].
  rewrite Hn in Hbound.
  destruct Hbound as (Hfin & Hrel & Hnine);
    [vm_compute; discriminate|vm_compute; discriminate|].
  split; [exact Hfin|]. split; [exact Hrel|].
  apply Hnine; reflexivity.
Defined.

(** C2. Contiguity, in any arithmetic: the call returns entries of which the
    first starts at [0.0] and each next one starts at the offset of the one
    before it plus its duration. Consequently, for [D >= 0] and an order the
    arithmetic respects (that of binary64, that of exact arithmetic), the
    offsets never decrease; a text, like every [str], has at most
    [sys.maxsize] characters. *)
Theorem entries_contiguous {F : Type} `{Arith F} (text : string) (D : F) :
  exists es : list (Entry F),
    generate_viseme_sequence text D = Ok es
    /\ (forall e, head es = Some e -> time_offset e = fzero)
    /\ (forall (i : nat) e e', es !! i = Some e -> es !! S i = Some e' ->
          time_offset e' = fadd (time_offset e) (duration e))
    /\ (forall fle : F -> F -> Prop, ArithOrder F fle ->
          Z.of_nat (String.length text) <= sys_maxsize ->
          fle fzero D ->
          StronglySorted fle (map time_offset es)).
Proof.
  eexists. split; [apply generate_viseme_sequence_Ok|].
  pose proof (lay_words_tiles fzero (time_per_word_of text D) (split (lower text))
                ([], fzero) (tiles_nil fzero)) as Htiles.
  repeat split.
  - intros e He.
    destruct (fst (lay_words _ _ _)) as [|e0 es]; [discriminate|].
    injection He as ->. eapply tiles_head, Htiles.
  - eapply tiles_adjacent, Htiles.
  - intros fle Hfle Htext HD. destruct (split_lengths text Htext) as [Hn Hw].
    apply (lay_words_ordered fle).
    + unfold time_per_word_of. apply fle_div_pos; [assumption|].
      unfold sys_maxsize in *. lia.
    + exact Hw.
    + repeat split; simpl; [constructor|constructor|apply fle_zero].
Qed.

Lemma entries_contiguous_witness :
  exists es : list (Entry float),
    generate_viseme_sequence "a b" 1.0%float = Ok es
    /\ StronglySorted (fun x y => (x <=? y)%float = true) (map time_offset es).
Proof.
  destruct (entries_contiguous "a b" 1.0%float) as (es & Hes & _ & _ & Hsorted).
  exists es. split; [exact Hes|].
  apply Hsorted; [exact binary64_order| |reflexivity]. vm_compute. discriminate.
Defined.

(** In exact arithmetic as well. *)
Example ex_sorted_exact :
  exists es : list (Entry Q),
    generate_viseme_sequence "a b" 1%Q = Ok es
    /\ StronglySorted Qle (map time_offset es).
Proof.
  eexists. split; [vm_compute; reflexivity|].
  simpl. repeat constructor; vm_compute; discriminate.
Qed.

(** C3. The call never raises, whatever the text (empty or not) and the
    duration (zero or not): it returns a list. Both divisions have a divisor
    [max(len(_), 1)], on which [/] returns, while a divisor [0] would raise;
    and [_word_to_visemes] returns as well. *)
Theorem never_raises {F : Type} `{Arith F} (text : string) (D : F) :
  (exists es : list (Entry F), generate_viseme_sequence text D = Ok es)
  /\ (forall word : string, exists vs : list Z, _word_to_visemes word = Ok vs)
  /\ (forall (words : list string) (x : F), exists y : F,
        truediv x (Z.max (len words) 1) = Ok y)
  /\ (forall (viseme_sequence : list Z) (x : F), exists y : F,
        truediv x (Z.max (len viseme_sequence) 1) = Ok y)
  /\ (forall x : F, truediv x 0 = Raise ZeroDivisionError).
Proof.
  repeat split.
  - eexists. apply generate_viseme_sequence_Ok.
  - intros word. eexists. apply _word_to_visemes_Ok.
  - intros words x. eexists. apply truediv_guarded.
  - intros vs x. eexists. apply truediv_guarded.
Qed.




(** In exact arithmetic the durations are negative. *)
Lemma negative_duration_exact (text : string) (D : Q) :
  (D < 0)%Q ->
  exists es : list (Entry Q),
    generate_viseme_sequence text D = Ok es
    /\ Forall (fun e => (duration e < 0)%Q) es.
Proof.
  intros HD. eexists. split; [apply generate_viseme_sequence_Ok|].
  apply lay_words_Forall; [|constructor].
  intros w id t _ _. simpl. unfold viseme_duration_of, time_per_word_of.
  now apply share_negative, share_negative.
Qed.

(** C5. A text without a word (the empty text, a text of whitespace) gives
    the empty sequence, whatever the duration; the division for
    [time_per_word] is then by [max(0, 1) = 1] and returns. *)
Theorem no_word_no_entry {F : Type} `{Arith F} (text : string) (D : F) :
  split (lower text) = [] ->
  generate_viseme_sequence text D = Ok []
  /\ truediv D (Z.max (len (split (lower text))) 1) = Ok (fdiv D (of_int 1)).
Proof.
  intros Hw. rewrite generate_viseme_sequence_Ok, truediv_guarded, Hw.
  split; reflexivity.
Qed.

Lemma no_word_no_entry_witness :
  generate_viseme_sequence "  " 3.0%float = Ok []
  /\ truediv 3.0%float (Z.max (len (split (lower "  "))) 1)
     = Ok (fdiv 3.0%float (of_int 1)).
Proof.
  apply (no_word_no_entry "  " 3.0%float). reflexivity.
Defined.

(** The texts without a word are the empty text and the texts of whitespace
    only. *)
Lemma no_word_iff (text : string) :
  split (lower text) = []
  <-> Forall (fun c => isspace c = true) (list_ascii_of_string text).
Proof. now rewrite split_nil, lower_whitespace. Qed.

Lemma empty_text {F : Type} `{Arith F} (D : F) :
  generate_viseme_sequence EmptyString D = Ok [].
Proof. now rewrite generate_viseme_sequence_Ok. Qed.

(** C6. Scenario B: [generate_viseme_sequence("a b", 1.0)] is exactly the two
    entries [{8, 0.0, 0.5}] and [{1, 0.5, 0.5}], in binary64 and in exact
    arithmetic alike. *)
Theorem scenario_a_b :
  generate_viseme_sequence "a b" 1.0%float
  = Ok [mkEntry 8 0.0%float 0.5%float; mkEntry 1 0.5%float 0.5%float]
  /\ generate_viseme_sequence "a b" 1%Q
     = Ok [mkEntry 8 0%Q (1 # 2)%Q; mkEntry 1 (1 # 2)%Q (1 # 2)%Q].
Proof. split; vm_compute; reflexivity. Qed.

(** C7. Both lookups default to silence and neither fails: a label whose
    normalised form is not a key of [VISEME_MAP] has viseme [0]; a character
    that is not a key of [letter_to_viseme] adds [0] to the visemes of its
    word; and the body of the character loop, hence [_word_to_visemes], always
    returns. *)
Theorem lookups_default_to_silence :
  (forall label : string,
     VISEME_MAP !! strip (lower label) = None -> phoneme_to_viseme label = 0)
  /\ (forall (c : ascii) (visemes : list Z),
        letter_to_viseme !! String c EmptyString = None ->
        _word_to_visemes_char visemes (String c EmptyString) = Ok (visemes ++ [0]))
  /\ (forall (visemes : list Z) (char : string), exists v : Z,
        _word_to_visemes_char visemes char = Ok (visemes ++ [v]))
  /\ (forall word : string, exists vs : list Z, _word_to_visemes word = Ok vs).
Proof.
  repeat split.
  - intros label Hnone. unfold phoneme_to_viseme, get. now rewrite Hnone.
  - intros c visemes Hnone.
    rewrite _word_to_visemes_char_Ok. unfold letter_of, get. now rewrite Hnone.
  - intros visemes char. eexists. apply _word_to_visemes_char_Ok.
  - intros word. eexists. apply _word_to_visemes_Ok.
Qed.

Lemma lookups_default_to_silence_witness :
  phoneme_to_viseme " Qx " = 0
  /\ _word_to_visemes_char [4] "!" = Ok [4; 0]
  /\ _word_to_visemes_char [4] "7" = Ok [4; 0]
  /\ _word_to_visemes_char [4] "c" = Ok [4; 0].
Proof.
  destruct lookups_default_to_silence as (Hlabel & Hchar & _).
  split; [|split; [|split]].
  - apply Hlabel. reflexivity.
  - apply (Hchar "!"%char [4]). reflexivity.
  - apply (Hchar "7"%char [4]). reflexivity.
  - apply (Hchar "c"%char [4]). reflexivity.
Defined.

(** C8. [phoneme_to_viseme] normalises before it looks up: a label and its
    lower-cased, stripped form have the same viseme; [SH] and [sh] both have
    viseme [5]. *)
Theorem phoneme_to_viseme_normalises :
  (forall label : string,
     phoneme_to_viseme label = phoneme_to_viseme (strip (lower label)))
  /\ phoneme_to_viseme "SH" = 5
  /\ phoneme_to_viseme "sh" = 5.
Proof.
  repeat split.
  intros label. unfold phoneme_to_viseme. now rewrite normalise_idem.
Qed.

(** C9. [viseme_count] is 15, every value of [VISEME_MAP] and of
    [letter_to_viseme] is between 0 and 14, and every [viseme_id] of a
    returned sequence is at least 0 and below [viseme_count]. *)
Theorem viseme_ids_in_range :
  viseme_count = 15
  /\ map_Forall (fun _ v => 0 <= v <= 14) VISEME_MAP
  /\ map_Forall (fun _ v => 0 <= v <= 14) letter_to_viseme
  /\ (forall (F : Type) (A : Arith F) (text : string) (D : F),
        exists es : list (Entry F),
          generate_viseme_sequence text D = Ok es
          /\ Forall (fun e => 0 <= viseme_id e < viseme_count) es).
Proof.
  split; [reflexivity|]. split; [|split].
  - apply (dict_values (fun v => 0 <= v <= 14)).
    repeat (constructor; [simpl; lia|]). constructor.
  - apply (dict_values (fun v => 0 <= v <= 14)).
    repeat (constructor; [simpl; lia|]). constructor.
  - intros F A text D. eexists. split; [apply generate_viseme_sequence_Ok|].
    apply lay_words_Forall; [|constructor].
    intros w id t _ Hid. apply visemes_of_letters in Hid. simpl.
    unfold letter_visemes, viseme_count in *. simpl in Hid.
    intuition lia.
Qed.

(** C10. Every [viseme_id] of a returned sequence is one of 0, 1, 2, 4, 5, 6,
    7, 8, 10, 11 and 12, so 3, 9, 13 and 14 never appear. The character loop
    looks up strings of length one, so the keys [ch] and [sh] of
    [letter_to_viseme] are never hit: the words [ch] and [sh] are read letter
    by letter, and the letter [c] is silence. *)
Theorem generated_viseme_ids :
  (forall (F : Type) (A : Arith F) (text : string) (D : F),
     exists es : list (Entry F),
       generate_viseme_sequence text D = Ok es
       /\ Forall (fun e => In (viseme_id e) [0; 1; 2; 4; 5; 6; 7; 8; 10; 11; 12]) es
       /\ Forall (fun e => ~ In (viseme_id e) [3; 9; 13; 14]) es)
  /\ (forall word : string,
        Forall (fun char => String.length char = 1%nat) (chars word))
  /\ letter_to_viseme !! "ch" = Some 5
  /\ letter_to_viseme !! "sh" = Some 5
  /\ _word_to_visemes "c" = Ok [0]
  /\ _word_to_visemes "ch" = Ok [0; 7]
  /\ _word_to_visemes "sh" = Ok [4; 7].
Proof.
  split; [|split; [|repeat split]].
  - intros F A text D. eexists. split; [apply generate_viseme_sequence_Ok|].
    split; (apply lay_words_Forall; [|constructor]);
      intros w id t _ Hid; apply visemes_of_letters in Hid; simpl.
    + exact Hid.
    + unfold letter_visemes in Hid. simpl in Hid. intros Hbad. simpl in Hbad.
      intuition lia.
  - intros word. induction word as [|c word IH]; simpl; constructor;
      [reflexivity|assumption].
Qed.

(** * Further properties of [VisemeMapper] *)

(** ** The words of a text *)

Lemma list_ascii_append (s1 s2 : string) :
  list_ascii_of_string (s1 +:+ s2) = list_ascii_of_string s1 ++ list_ascii_of_string s2.
Proof. induction s1 as [|c s1 IH]; simpl; [reflexivity|now rewrite IH]. Qed.

(** The characters of the words, put end to end, are the characters of the
    text that are not whitespace. *)
Lemma split_from_concat (s word : string) :
  concat (map list_ascii_of_string (split_from word s))
  = list_ascii_of_string word
    ++ List.filter (fun c => negb (isspace c)) (list_ascii_of_string s).
Proof.
  revert word. induction s as [|c s IH]; intros word; simpl.
  - destruct (decide (word = EmptyString)) as [->|]; simpl; now rewrite ?app_nil_r.
  - destruct (isspace c); simpl.
    + rewrite map_app, concat_app, IH. simpl.
      destruct (decide (word = EmptyString)) as [->|]; simpl; now rewrite ?app_nil_r.
    + rewrite IH, list_ascii_append, <- app_assoc. reflexivity.
Qed.

(** No word is empty, and no word has a whitespace character. *)
Lemma split_from_words (s word : string) :
  Forall (fun c => isspace c = false) (list_ascii_of_string word) ->
  Forall (fun w => w <> EmptyString
                   /\ Forall (fun c => isspace c = false) (list_ascii_of_string w))
         (split_from word s).
Proof.
  revert word. induction s as [|c s IH]; intros word Hword; simpl.
  - destruct (decide (word = EmptyString)); repeat constructor; assumption.
  - destruct (isspace c) eqn:E.
    + apply Forall_app. split; [|apply IH; constructor].
      destruct (decide (word = EmptyString)); repeat constructor; assumption.
    + apply IH. rewrite list_ascii_append. apply Forall_app. split; [assumption|].
      repeat constructor. assumption.
Qed.

Lemma chars_map (s : string) :
  chars s = map (fun c => String c EmptyString) (list_ascii_of_string s).
Proof. induction s as [|c s IH]; simpl; [reflexivity|now rewrite IH]. Qed.

Lemma visemes_of_word (w : string) :
  w <> EmptyString -> visemes_of w = map letter_of (chars w).
Proof. unfold visemes_of. destruct w; [congruence|reflexivity]. Qed.

Lemma visemes_of_words (words : list string) :
  Forall (fun w => w <> EmptyString) words ->
  concat (map visemes_of words)
  = map (fun c => letter_of (String c EmptyString))
        (concat (map list_ascii_of_string words)).
Proof.
  induction 1 as [|w words Hw _ IH]; simpl; [reflexivity|].
  rewrite IH, map_app, visemes_of_word, chars_map, map_map by assumption.
  reflexivity.
Qed.

Section Identifiers.
Context {F : Type} `{Arith F}.

Lemma append_viseme_ids (d : F) (ids : list Z) :
  forall st, map viseme_id (fst (fold_left (append_viseme d) ids st))
             = map viseme_id (fst st) ++ ids.
Proof.
  induction ids as [|id ids IH]; intros [es t]; simpl.
  - now rewrite app_nil_r.
  - rewrite IH. simpl. rewrite map_app, <- app_assoc. reflexivity.
Qed.

Lemma lay_words_ids (tpw : F) (words : list string) :
  forall st, map viseme_id (fst (lay_words tpw st words))
             = map viseme_id (fst st) ++ concat (map visemes_of words).
Proof.
  unfold lay_words. induction words as [|w words IH]; intros st; simpl.
  - now rewrite app_nil_r.
  - rewrite IH. unfold lay_word. rewrite append_viseme_ids, <- app_assoc. reflexivity.
Qed.

Lemma tiles_prefix (t0 t1 : F) (es : list (Entry F)) :
  tiles t0 es t1 ->
  forall (i : nat) (e : Entry F), es !! i = Some e ->
    time_offset e = fold_left (fun acc e => fadd acc (duration e)) (take i es) t0.
Proof.
  induction 1 as [t|t e0 es t' He Hes IH]; intros i e Hi.
  - discriminate.
  - destruct i as [|i]; simpl in *.
    + injection Hi as <-. assumption.
    + subst t. now apply IH.
Qed.
End Identifiers.

(** X1. The visemes of the result are those of the characters of the
    lower-cased text, [text.lower()], that are not whitespace, one entry
    each and in their order: neither the duration nor the arithmetic nor
    where the words end changes them. *)
Theorem viseme_ids_of_text {F : Type} `{Arith F} (text : string) (D : F) :
  exists es : list (Entry F),
    generate_viseme_sequence text D = Ok es
    /\ map viseme_id es
       = map (fun c => letter_of (String c EmptyString))
             (List.filter (fun c => negb (isspace c)) (list_ascii_of_string (lower text)))
    /\ length es
       = length (List.filter (fun c => negb (isspace c))
                   (list_ascii_of_string (lower text))).
Proof.
  eexists. split; [apply generate_viseme_sequence_Ok|].
  assert (E : map viseme_id
                (fst (lay_words (time_per_word_of text D) ([], fzero) (split (lower text))))
              = map (fun c => letter_of (String c EmptyString))
                  (List.filter (fun c => negb (isspace c))
                     (list_ascii_of_string (lower text)))).
  { rewrite lay_words_ids. simpl. rewrite visemes_of_words.
    - unfold split. rewrite split_from_concat. reflexivity.
    - eapply Forall_impl; [apply split_from_words; constructor|]. simpl. tauto. }
  split; [exact E|].
  apply (f_equal (@length Z)) in E. now rewrite !length_map in E.
Qed.

(** X2. Each offset is the sum of the durations of the entries before it,
    added from the left as [sum] does: exactly so, in binary64 too. *)
Theorem offsets_are_prefix_sums {F : Type} `{Arith F} (text : string) (D : F) :
  exists es : list (Entry F),
    generate_viseme_sequence text D = Ok es
    /\ forall (i : nat) (e : Entry F),
         es !! i = Some e -> time_offset e = sum_durations (take i es).
Proof.
  eexists. split; [apply generate_viseme_sequence_Ok|].
  apply tiles_prefix with (t1 := snd (lay_words (time_per_word_of text D) ([], fzero)
                                         (split (lower text)))).
  apply lay_words_tiles, tiles_nil.
Qed.

Lemma offsets_are_prefix_sums_witness :
  exists es : list (Entry float),
    generate_viseme_sequence "hi yo" 1.0%float = Ok es
    /\ forall e, es !! 3%nat = Some e -> time_offset e = sum_durations (take 3 es).
Proof.
  destruct (offsets_are_prefix_sums "hi yo" 1.0%float) as (es & Hes & Hsum).
  exists es. split; [exact Hes|]. intros e. apply Hsum.
Defined.

Lemma split_word (text w : string) :
  In w (split (lower text)) ->
  w <> EmptyString /\ Forall (fun c => isspace c = false) (list_ascii_of_string w).
Proof.
  intros Hin.
  pose proof (split_from_words (lower text) EmptyString (List.Forall_nil _)) as Hwords.
  rewrite List.Forall_forall in Hwords. exact (Hwords w Hin).
Qed.

(** X3. The two guards for an empty word are never used on a word of a
    text: a word that [split] returns is not empty and has no whitespace, so
    [_word_to_visemes] returns one viseme per character, not the fallback
    [[0]], and [max(len(viseme_sequence), 1)] is the length of the word. *)
Theorem empty_word_guards_unused (text w : string) :
  In w (split (lower text)) ->
  w <> EmptyString
  /\ Forall (fun c => isspace c = false) (list_ascii_of_string w)
  /\ _word_to_visemes w = Ok (map letter_of (chars w))
  /\ (forall vs, _word_to_visemes w = Ok vs ->
        Z.max (len vs) 1 = Z.of_nat (String.length w)).
Proof.
  intros Hin. destruct (split_word text w Hin) as [Hne Hns].
  repeat split; try assumption.
  - now rewrite _word_to_visemes_Ok, visemes_of_word.
  - intros vs. rewrite _word_to_visemes_Ok. intros [= <-].
    rewrite len_visemes_of. destruct w; [congruence|]. simpl String.length. lia.
Qed.

Lemma empty_word_guards_unused_witness :
  _word_to_visemes "there" = Ok (map letter_of (chars "there"))
  /\ "there" <> EmptyString.
Proof.
  destruct (empty_word_guards_unused " Hi  THERE " "there") as (Hne & _ & Hv & _).
  - vm_compute. tauto.
  - split; assumption.
Defined.


(** ** Where the entries lie *)

Section NonNegative.
Context {F : Type} `{Arith F} (fle : F -> F -> Prop) `{!ArithOrder F fle}.

(** The invariant of both loops: no entry written so far has a negative
    offset or duration, and [current_time] is not negative. *)
Definition nonnegative (st : list (Entry F) * F) : Prop :=
  Forall (fun e => fle fzero (time_offset e) /\ fle fzero (duration e)) (fst st)
  /\ fle fzero (snd st).

Lemma append_viseme_nonnegative (d : F) (ids : list Z) :
  fle fzero d ->
  forall st, nonnegative st -> nonnegative (fold_left (append_viseme d) ids st).
Proof.
  intros Hd. induction ids as [|id ids IH]; intros [es t] [Hes Ht]; simpl in *.
  - split; assumption.
  - apply IH. split; simpl.
    + apply Forall_app. split; [assumption|]. repeat constructor; assumption.
    + exact (fle_trans _ _ _ Ht (fle_add_nonneg _ _ Ht Hd)).
Qed.

Lemma lay_words_nonnegative (tpw : F) (words : list string) :
  fle fzero tpw ->
  Forall (fun w => len (visemes_of w) <= sys_maxsize) words ->
  forall st, nonnegative st -> nonnegative (lay_words tpw st words).
Proof.
  intros Htpw. unfold lay_words.
  induction words as [|w words IH]; intros Hlen st Hst; simpl.
  - assumption.
  - inversion Hlen as [|? ? Hw Hwords]; subst.
    apply IH; [assumption|]. unfold lay_word.
    apply append_viseme_nonnegative; [|assumption].
    unfold viseme_duration_of. apply fle_div_pos; [assumption|].
    pose proof (len_pos _ (visemes_of_nonempty w)). lia.
Qed.
End NonNegative.

(** X5. For a duration that is not negative, no entry has a negative offset
    or a negative duration: in binary64 as in exact arithmetic, for a text of
    at most [sys.maxsize] characters, as every [str] is. *)
Theorem entries_nonnegative {F : Type} `{Arith F} (fle : F -> F -> Prop)
    (text : string) (D : F) :
  ArithOrder F fle ->
  Z.of_nat (String.length text) <= sys_maxsize ->
  fle fzero D ->
  exists es : list (Entry F),
    generate_viseme_sequence text D = Ok es
    /\ Forall (fun e => fle fzero (time_offset e) /\ fle fzero (duration e)) es.
Proof.
  intros Hfle Htext HD. destruct (split_lengths text Htext) as [Hn Hw].
  eexists. split; [apply generate_viseme_sequence_Ok|].
  apply (lay_words_nonnegative fle).
  - unfold time_per_word_of. apply fle_div_pos; [assumption|].
    unfold sys_maxsize in *. lia.
  - exact Hw.
  - split; simpl; [constructor|apply fle_zero].
Qed.

Lemma entries_nonnegative_witness :
  exists es : list (Entry float),
    generate_viseme_sequence "a b" 1.0%float = Ok es
    /\ Forall (fun e => (0 <=? time_offset e)%float = true
                        /\ (0 <=? duration e)%float = true) es.
Proof.
  refine (entries_nonnegative (fun x y => (x <=? y)%float = true) "a b" 1.0%float
            binary64_order _ _).
  - vm_compute. discriminate.
  - reflexivity.
Defined.

(** ** Where the entries end, in binary64 *)








(** ** Texts with the same timeline *)

Lemma split_lstrip (s : string) : split (lstrip s) = split s.
Proof.
  unfold split. induction s as [|c s IH]; simpl; [reflexivity|].
  destruct (isspace c) eqn:E; [exact IH|]. simpl. now rewrite E.
Qed.

Lemma rstrip_empty (s : string) :
  rstrip s = EmptyString ->
  Forall (fun c => isspace c = true) (list_ascii_of_string s).
Proof.
  induction s as [|c s IH]; [constructor|]. rewrite rstrip_cons.
  destruct (isspace c) eqn:E; simpl; [|discriminate].
  case_bool_decide as Er; [|discriminate]. intros _. constructor; auto.
Qed.

Lemma split_from_rstrip (s : string) :
  forall word : string, split_from word (rstrip s) = split_from word s.
Proof.
  induction s as [|c s IH]; intros word; [reflexivity|].
  rewrite rstrip_cons. destruct (isspace c) eqn:E; simpl andb.
  - case_bool_decide as Er; simpl; rewrite E.
    + apply rstrip_empty, split_nil in Er. unfold split in Er.
      now rewrite Er, app_nil_r.
    + now rewrite IH.
  - simpl. rewrite E. apply IH.
Qed.

Lemma split_strip (s : string) : split (strip s) = split s.
Proof. unfold strip, split. rewrite split_from_rstrip. apply split_lstrip. Qed.

(** X7. Whitespace around the text and the case of its letters do not
    change the timeline: the stripped text and the lower-cased text give
    the result of the text itself. *)
Theorem timeline_of_normalised_text {F : Type} `{Arith F} (text : string) (D : F) :
  generate_viseme_sequence (strip text) D = generate_viseme_sequence text D
  /\ generate_viseme_sequence (lower text) D = generate_viseme_sequence text D.
Proof.
  unfold generate_viseme_sequence.
  now rewrite lower_strip, split_strip, lower_idem.
Qed.

(** ** The two tables *)

(** X8. The letter table and the phoneme table agree wherever both have a
    key: a key of [letter_to_viseme] that is also a key of [VISEME_MAP] has
    the same viseme in both. *)
Theorem tables_agree (k : string) (v v' : Z) :
  letter_to_viseme !! k = Some v -> VISEME_MAP !! k = Some v' -> v = v'.
Proof.
  intros Hl Hp. apply dict_lookup_In in Hl. simpl in Hl.
  repeat (destruct Hl as [Hl|Hl];
          [injection Hl as <- <-; vm_compute in Hp; congruence|]).
  contradiction.
Qed.

Lemma tables_agree_witness : letter_of "sh" = phoneme_to_viseme " SH ".
Proof. change ((5 : Z) = 5). apply (tables_agree "sh" 5 5); reflexivity. Defined.

(** X9. [phoneme_to_viseme] returns a valid identifier for every label:
    at least 0 and below [viseme_count]. *)
Theorem phoneme_to_viseme_in_range (phoneme : string) :
  0 <= phoneme_to_viseme phoneme < viseme_count.
Proof.
  unfold phoneme_to_viseme, get, viseme_count.
  destruct (VISEME_MAP !! strip (lower phoneme)) as [v|] eqn:E; [|lia].
  apply dict_lookup_In in E. simpl in E.
  repeat (destruct E as [E|E]; [injection E as _ <-; lia|]).
  contradiction.
Qed.

(** * [TTSService] and the route [/api/generate-speech]

    The route reads the JSON body of the request, checks it, calls the
    service and answers. What lies outside the program is a parameter:
    [synthesize] stands for gTTS and librosa (the audio of a text in a
    language, its duration and its sample rate, or an exception), and
    [b64encode] for [base64.b64encode(_).decode('utf-8')]. *)

(** ** JSON values, as [request.get_json()] returns them *)

#[warnings="-register-all"]
Inductive json : Type :=
| JNull
| JBool (b : bool)
| JInt (n : Z)
| JFloat (x : float)
| JStr (s : string)
| JList (l : list json)
| JObj (d : gmap string json).

(** The exceptions of this layer: those of the interpreter on a value of the
    wrong type, those of [VisemeMapper], and those of the world outside. *)
Inductive exception : Type :=
| TypeError
| AttributeError
| Builtin (e : exn)
| External (message : string).

Inductive outcome (A : Type) : Type :=
| Returns (a : A)
| Raises (e : exception).
Arguments Returns {A} a.
Arguments Raises {A} e.

Definition and_then {A B} (m : outcome A) (k : A -> outcome B) : outcome B :=
  match m with
  | Returns a => k a
  | Raises e => Raises e
  end.

Notation "'run' x <- m ; k" := (and_then m (fun x => k))
  (at level 10, x name, m at level 100, k at level 200).

(** [bool(data)] *)
Definition truthy (data : json) : bool :=
  match data with
  | JNull => false
  | JBool b => b
  | JInt n => negb (n =? 0)
  | JFloat x => negb (PrimFloat.eqb x 0%float)
  | JStr s => negb (bool_decide (s = EmptyString))
  | JList l => negb (bool_decide (l = []))
  | JObj d => negb (bool_decide (d = ∅))
  end.

(** [key in s] for two strings: [key] occurs in [s]. *)
Fixpoint occurs_in (key s : string) : bool :=
  String.prefix key s
  || match s with
     | EmptyString => false
     | String _ s' => occurs_in key s'
     end.

(** [key in data], for a string [key] *)
Definition json_contains (data : json) (key : string) : outcome bool :=
  match data with
  | JObj d => Returns (bool_decide (is_Some (d !! key)))
  | JList l =>
      Returns (existsb (fun v => match v with
                                 | JStr s => bool_decide (s = key)
                                 | _ => false
                                 end) l)
  | JStr s => Returns (occurs_in key s)
  | _ => Raises TypeError
  end.

(** [data[key]], for a string [key] *)
Definition json_getitem (data : json) (key : string) : outcome json :=
  match data with
  | JObj d =>
      match d !! key with
      | Some v => Returns v
      | None => Raises (Builtin KeyError)
      end
  | _ => Raises TypeError
  end.

(** [data.get(key, default)] *)
Definition json_get (data : json) (key : string) (default : json) : outcome json :=
  match data with
  | JObj d =>
      Returns (match d !! key with
               | Some v => v
               | None => default
               end)
  | _ => Raises AttributeError
  end.

(** [value.strip()] *)
Definition json_strip (value : json) : outcome string :=
  match value with
  | JStr s => Returns (strip s)
  | _ => Raises AttributeError
  end.

(** [provider == 'gtts'] *)
Definition json_eq_str (value : json) (s : string) : bool :=
  match value with
  | JStr s' => bool_decide (s' = s)
  | _ => false
  end.

(** ** The service and the route *)

(** The dict [generate_speech_gtts] returns. *)
Record speech (F audio : Type) : Type := mkSpeech {
  speech_audio_data : audio;
  speech_duration : F;
  speech_visemes : list (Entry F);
  speech_sample_rate : Z;
  speech_format : string
}.
Arguments mkSpeech {F audio} _ _ _ _ _.
Arguments speech_audio_data {F audio} _.
Arguments speech_duration {F audio} _.
Arguments speech_visemes {F audio} _.
Arguments speech_sample_rate {F audio} _.
Arguments speech_format {F audio} _.

(** The value of the key ['error'] of an answer: one of the two fixed
    texts, ['Unsupported provider: '] followed by the provider, or the text
    of an exception. *)
Inductive error_text : Type :=
| Fixed (s : string)
| UnsupportedProvider (provider : json)
| OfException (e : exception).

(** The dict given to [jsonify]: an error, or the speech, whose key
    [success] is always [True] and is left out. *)
Inductive body (F : Type) : Type :=
| ErrorBody (error : error_text)
| SpeechBody (audio_data : string) (duration : F) (visemes : list (Entry F))
    (sample_rate : Z) (format : string) (text : string) (language provider : json).
Arguments ErrorBody {F} _.
Arguments SpeechBody {F} _ _ _ _ _ _ _ _.

(** An answer: the body and the status code. *)
Definition response (F : Type) : Type := (body F * Z)%type.

Section Service.
Context {F : Type} `{Arith F} {audio : Type}.
Variable synthesize : string -> json -> outcome (audio * F * Z).
Variable b64encode : audio -> string.

Definition generate_speech_gtts (text : string) (language : json)
    : outcome (speech F audio) :=
  (* try: ... except Exception: log and raise again *)
  run synthesized <- synthesize text language;
  let '(audio_data, duration, sr) := synthesized in
  run visemes <- match generate_viseme_sequence text duration with
                 | Ok visemes => Returns visemes
                 | Raise e => Raises (Builtin e)
                 end;
  Returns (mkSpeech audio_data duration visemes sr "mp3").

(** The body of the [try] of [generate_speech], for what
    [request.get_json()] does. *)
Definition generate_speech_try (get_json : outcome json) : outcome (response F) :=
  run data <- get_json;
  (* if not data or 'text' not in data *)
  run missing <- (if negb (truthy data) then Returns true
                  else run present <- json_contains data "text";
                       Returns (negb present));
  if missing then Returns (ErrorBody (Fixed "Text input required"), 400)
  else
    run value <- json_getitem data "text";
    run text <- json_strip value;
    if bool_decide (text = EmptyString)
    then Returns (ErrorBody (Fixed "Empty text input"), 400)
    else
      run language <- json_get data "language" (JStr "en");
      run provider <- json_get data "provider" (JStr "gtts");
      if json_eq_str provider "gtts"
      then
        run result <- generate_speech_gtts text language;
        let audio_base64 := b64encode (speech_audio_data result) in
        Returns (SpeechBody audio_base64 (speech_duration result)
                   (speech_visemes result) (speech_sample_rate result)
                   (speech_format result) text language provider, 200)
      else Returns (ErrorBody (UnsupportedProvider provider), 400).

Definition generate_speech (get_json : outcome json) : response F :=
  match generate_speech_try get_json with
  | Returns answer => answer
  | Raises e => (ErrorBody (OfException e), 500)
  end.
End Service.

(** ** The service fails only where the world outside does *)

(** X10. [generate_speech_gtts] raises exactly when gTTS or librosa does, and
    then the same exception; otherwise it returns the audio, the duration
    and the sample rate it was given, the format [mp3], and the timeline of
    the text over that duration. *)
Theorem generate_speech_gtts_spec {F : Type} `{Arith F} {audio : Type}
    (synthesize : string -> json -> outcome (audio * F * Z))
    (text : string) (language : json) :
  match synthesize text language with
  | Raises e => generate_speech_gtts synthesize text language = Raises e
  | Returns (audio_data, duration, sr) =>
      exists visemes : list (Entry F),
        generate_viseme_sequence text duration = Ok visemes
        /\ generate_speech_gtts synthesize text language
           = Returns (mkSpeech audio_data duration visemes sr "mp3")
  end.
Proof.
  unfold generate_speech_gtts.
  destruct (synthesize text language) as [[[a d] sr]|e]; simpl; [|reflexivity].
  rewrite generate_viseme_sequence_Ok. eexists. split; reflexivity.
Qed.

(** ** What the route answers *)

Section Route.
Context {F : Type} `{Arith F} {audio : Type}.
Variable synthesize : string -> json -> outcome (audio * F * Z).
Variable b64encode : audio -> string.

Lemma truthy_object (d : gmap string json) (key : string) (v : json) :
  d !! key = Some v -> truthy (JObj d) = true.
Proof.
  intros Hk. simpl. case_bool_decide as E; [|reflexivity].
  rewrite E, lookup_empty in Hk. discriminate.
Qed.

(** The route on an object that has a key [text]. *)
Lemma generate_speech_try_text (d : gmap string json) (v : json) :
  d !! "text" = Some v ->
  generate_speech_try synthesize b64encode (Returns (JObj d))
  = run text <- json_strip v;
    if bool_decide (text = EmptyString)
    then Returns (ErrorBody (Fixed "Empty text input"), 400)
    else
      let language := default (JStr "en") (d !! "language") in
      let provider := default (JStr "gtts") (d !! "provider") in
      if json_eq_str provider "gtts"
      then
        run result <- generate_speech_gtts synthesize text language;
        Returns (SpeechBody (b64encode (speech_audio_data result))
                   (speech_duration result) (speech_visemes result)
                   (speech_sample_rate result) (speech_format result)
                   text language provider, 200)
      else Returns (ErrorBody (UnsupportedProvider provider), 400).
Proof.
  intros Hk. unfold generate_speech_try.
  cbn [and_then]. rewrite (truthy_object d "text" v Hk). cbn [negb json_contains and_then].
  rewrite bool_decide_eq_true_2 by (rewrite Hk; eauto). cbn [negb json_getitem].
  rewrite Hk. cbn [and_then].
  destruct (json_strip v) as [text|e]; cbn [and_then]; [|reflexivity].
  destruct (bool_decide (text = EmptyString)); [reflexivity|].
  cbn [json_get and_then]. unfold default.
  destruct (d !! "language"), (d !! "provider"); reflexivity.
Qed.

(** The route on an object that has no key [text]. *)
Lemma generate_speech_try_no_text (d : gmap string json) :
  d !! "text" = None ->
  generate_speech_try synthesize b64encode (Returns (JObj d))
  = Returns (ErrorBody (Fixed "Text input required"), 400).
Proof.
  intros Hk. unfold generate_speech_try. cbn [and_then truthy].
  destruct (bool_decide (d = ∅)); cbn [negb and_then]; [reflexivity|].
  cbn [json_contains and_then].
  rewrite bool_decide_eq_false_2 by (rewrite Hk; intros [? ?]; discriminate).
  reflexivity.
Qed.
End Route.

Section Answers.
Context {F : Type} `{Arith F} {audio : Type}.
Variable synthesize : string -> json -> outcome (audio * F * Z).
Variable b64encode : audio -> string.

Lemma generate_speech_gtts_Raises (text : string) (language : json) (e : exception) :
  synthesize text language = Raises e ->
  generate_speech_gtts synthesize text language = Raises e.
Proof. intros E. unfold generate_speech_gtts. now rewrite E. Qed.

Lemma generate_speech_gtts_Returns (text : string) (language : json)
    (a : audio) (d : F) (sr : Z) :
  synthesize text language = Returns (a, d, sr) ->
  exists visemes : list (Entry F),
    generate_viseme_sequence text d = Ok visemes
    /\ generate_speech_gtts synthesize text language
       = Returns (mkSpeech a d visemes sr "mp3").
Proof.
  intros E. unfold generate_speech_gtts. rewrite E. simpl.
  rewrite generate_viseme_sequence_Ok. eexists. split; reflexivity.
Qed.

(** The answer to a body that is an object with a text that is a string. *)
Lemma generate_speech_text (d : gmap string json) (s : string) :
  d !! "text" = Some (JStr s) ->
  generate_speech synthesize b64encode (Returns (JObj d))
  = if bool_decide (strip s = EmptyString)
    then (ErrorBody (Fixed "Empty text input"), 400)
    else
      let language := default (JStr "en") (d !! "language") in
      let provider := default (JStr "gtts") (d !! "provider") in
      if json_eq_str provider "gtts"
      then
        match synthesize (strip s) language with
        | Raises e => (ErrorBody (OfException e), 500)
        | Returns (a, duration, sr) =>
            match generate_viseme_sequence (strip s) duration with
            | Ok visemes =>
                (SpeechBody (b64encode a) duration visemes sr "mp3"
                   (strip s) language provider, 200)
            | Raise e => (ErrorBody (OfException (Builtin e)), 500)
            end
        end
      else (ErrorBody (UnsupportedProvider provider), 400).
Proof.
  intros Hk. unfold generate_speech.
  rewrite (generate_speech_try_text _ _ d (JStr s) Hk). cbn [json_strip and_then].
  destruct (bool_decide (strip s = EmptyString)); [reflexivity|]. cbv zeta.
  destruct (json_eq_str _ "gtts"); [|reflexivity].
  destruct (synthesize (strip s) (default (JStr "en") (d !! "language")))
    as [[[a dur] sr]|e] eqn:E.
  - destruct (generate_speech_gtts_Returns _ _ _ _ _ E) as (visemes & Hv & ->).
    rewrite Hv. reflexivity.
  - now rewrite (generate_speech_gtts_Raises _ _ _ E).
Qed.
End Answers.

Lemma json_not_str (v : json) :
  (forall s, v <> JStr s) -> json_strip v = Raises AttributeError.
Proof. intros Hv. destruct v; try reflexivity. now destruct (Hv s). Qed.

(** X11. The route answers 200 exactly when the body is an object whose
    [text] is a string that is not empty once stripped, whose [provider] is
    absent or ['gtts'], and gTTS and librosa return for the stripped text
    and the [language] of the body (['en'] when absent). *)
Theorem answers_200_iff {F : Type} `{Arith F} {audio : Type}
    (synthesize : string -> json -> outcome (audio * F * Z))
    (b64encode : audio -> string) (get_json : outcome json) :
  snd (generate_speech synthesize b64encode get_json) = 200
  <-> exists (d : gmap string json) (s : string) (a : audio) (duration : F) (sr : Z),
        get_json = Returns (JObj d)
        /\ d !! "text" = Some (JStr s)
        /\ strip s <> EmptyString
        /\ (d !! "provider" = None \/ d !! "provider" = Some (JStr "gtts"))
        /\ synthesize (strip s) (default (JStr "en") (d !! "language"))
           = Returns (a, duration, sr).
Proof.
  split.
  - destruct get_json as [data|e]; [|discriminate].
    destruct data as [|b|n|x|s|l|d];
      try (unfold generate_speech, generate_speech_try; cbn [and_then truthy];
           repeat (match goal with
                   | |- context [if ?b then _ else _] => destruct b
                   end; cbn [negb and_then json_contains json_getitem snd]);
           discriminate).
    destruct (d !! "text") as [v|] eqn:Hk.
    + destruct v as [|b|n|x|s|l|d'];
        try (unfold generate_speech;
             rewrite (generate_speech_try_text _ _ d _ Hk); discriminate).
      rewrite (generate_speech_text _ _ d s Hk).
      case_bool_decide as Es; [discriminate|]. cbv zeta.
      destruct (json_eq_str _ "gtts") eqn:Ep; [|discriminate].
      destruct (synthesize _ _) as [[[a dur] sr]|e] eqn:E; [|discriminate].
      intros _. exists d, s, a, dur, sr. repeat split; try assumption.
      destruct (d !! "provider") as [p|]; [|now left]. right.
      destruct p; try discriminate. simpl in Ep. apply bool_decide_eq_true in Ep.
      now subst.
    + unfold generate_speech. rewrite generate_speech_try_no_text by assumption.
      discriminate.
  - intros (d & s & a & dur & sr & -> & Hk & Hs & Hp & E).
    rewrite (generate_speech_text _ _ d s Hk).
    rewrite bool_decide_eq_false_2 by assumption. cbv zeta.
    replace (json_eq_str (default (JStr "gtts") (d !! "provider")) "gtts") with true
      by (destruct Hp as [->| ->]; reflexivity).
    rewrite E, generate_viseme_sequence_Ok. reflexivity.
Qed.

Lemma existsb_text (l : list json) :
  existsb (fun v => match v with
                    | JStr s => bool_decide (s = "text")
                    | _ => false
                    end) l = true
  <-> In (JStr "text") l.
Proof.
  rewrite existsb_exists. split.
  - intros (v & Hin & Hv). destruct v; try discriminate.
    apply bool_decide_eq_true in Hv. now subst.
  - intros Hin. exists (JStr "text"). split; [assumption|].
    now apply bool_decide_eq_true.
Qed.

(** X12. A body that is not an object never reaches gTTS. It is answered
    400, [Text input required], when it is falsy ([null], [false], zero,
    the empty string, the empty array) or does not contain ['text'], and
    500, for a [TypeError], otherwise: a number or [true], a string in which
    [text] occurs, an array with the element ['text']. *)
Theorem non_object_bodies {F : Type} `{Arith F} {audio : Type}
    (synthesize : string -> json -> outcome (audio * F * Z))
    (b64encode : audio -> string) :
  let answer data := generate_speech synthesize b64encode (Returns data) in
  let required : response F := (ErrorBody (Fixed "Text input required"), 400) in
  let type_error : response F := (ErrorBody (OfException TypeError), 500) in
  answer JNull = required
  /\ (forall b, answer (JBool b) = if b then type_error else required)
  /\ (forall n, answer (JInt n) = if n =? 0 then required else type_error)
  /\ (forall x, answer (JFloat x)
                = if PrimFloat.eqb x 0%float then required else type_error)
  /\ (forall s, answer (JStr s)
                = if occurs_in "text" s then type_error else required)
  /\ (forall l, (In (JStr "text") l -> answer (JList l) = type_error)
                /\ (~ In (JStr "text") l -> answer (JList l) = required)).
Proof.
  cbv zeta. unfold generate_speech, generate_speech_try.
  split; [reflexivity|]. split; [intros []; reflexivity|].
  split; [intros n; cbn; destruct (n =? 0); reflexivity|].
  split; [intros x; cbn; destruct (PrimFloat.eqb x 0%float); reflexivity|].
  split.
  - intros s. cbn [and_then truthy]. case_bool_decide as Es.
    + subst s. reflexivity.
    + cbn [negb json_contains and_then]. destruct (occurs_in "text" s); reflexivity.
  - intros l. cbn [and_then truthy]. rewrite <- existsb_text.
    case_bool_decide as El.
    + subst l. split; [discriminate|reflexivity].
    + cbn [negb json_contains and_then].
      destruct (existsb _ l); split; intros E; try reflexivity; congruence.
Qed.

Lemma non_object_bodies_witness :
  generate_speech (fun _ _ => Returns (tt, 1.0%float, 22050)) (fun _ => "AA==")
    (Returns (JList [JInt 1; JStr "text"]))
  = (ErrorBody (OfException TypeError), 500).
Proof.
  destruct (non_object_bodies (fun _ _ => Returns (tt, 1.0%float, 22050))
              (fun _ : unit => "AA==")) as (_ & _ & _ & _ & _ & Hlist).
  apply (Hlist [JInt 1; JStr "text"]). right. now left.
Defined.

(** X13. A [text] that is not a string is answered 500, for an
    [AttributeError], whatever else the body holds; gTTS is not reached. *)
Theorem text_not_a_string {F : Type} `{Arith F} {audio : Type}
    (synthesize : string -> json -> outcome (audio * F * Z))
    (b64encode : audio -> string) (d : gmap string json) (v : json) :
  d !! "text" = Some v ->
  (forall s, v <> JStr s) ->
  generate_speech synthesize b64encode (Returns (JObj d))
  = (ErrorBody (OfException AttributeError), 500).
Proof.
  intros Hk Hv. unfold generate_speech.
  rewrite (generate_speech_try_text _ _ d v Hk), (json_not_str v Hv). reflexivity.
Qed.

Lemma text_not_a_string_witness :
  generate_speech (fun _ _ => Returns (tt, 1.0%float, 22050)) (fun _ => "AA==")
    (Returns (JObj {[ "text" := JInt 42 ]}))
  = (ErrorBody (OfException AttributeError), 500).
Proof.
  apply (text_not_a_string _ _ {[ "text" := JInt 42 ]} (JInt 42)).
  - reflexivity.
  - discriminate.
Defined.

Lemma lstrip_spaces (s : string) :
  Forall (fun c => isspace c = true) (list_ascii_of_string (lstrip s)) ->
  Forall (fun c => isspace c = true) (list_ascii_of_string s).
Proof.
  induction s as [|c s IH]; simpl; [trivial|].
  destruct (isspace c) eqn:E; [|trivial]. intros Hs. constructor; auto.
Qed.

Lemma lstrip_of_spaces (s : string) :
  Forall (fun c => isspace c = true) (list_ascii_of_string s) ->
  lstrip s = EmptyString.
Proof.
  induction s as [|c s IH]; simpl; [reflexivity|].
  inversion 1 as [|? ? Hc Hs]; subst. rewrite Hc. now apply IH.
Qed.

Lemma strip_empty_iff (s : string) :
  strip s = EmptyString
  <-> Forall (fun c => isspace c = true) (list_ascii_of_string s).
Proof.
  unfold strip. split.
  - intros E. now apply lstrip_spaces, rstrip_empty.
  - intros Hs. now rewrite lstrip_of_spaces.
Qed.

Lemma json_eq_str_false (v : json) (s : string) :
  v <> JStr s -> json_eq_str v s = false.
Proof.
  intros Hv. destruct v; try reflexivity. simpl.
  apply bool_decide_eq_false_2. congruence.
Qed.

Lemma json_eq_str_true (v : json) (s : string) :
  json_eq_str v s = true -> v = JStr s.
Proof.
  destruct v; try discriminate. simpl. intros E.
  apply bool_decide_eq_true in E. now subst.
Qed.

Section Cases.
Context {F : Type} `{Arith F} {audio : Type}.
Variable synthesize : string -> json -> outcome (audio * F * Z).
Variable b64encode : audio -> string.

(** Every answer is an error with status 400 or 500, or the speech of a
    checked request with status 200. *)
Lemma generate_speech_cases (get_json : outcome json) :
  (exists (error : error_text) (status : Z),
     generate_speech synthesize b64encode get_json = (ErrorBody error, status)
     /\ (status = 400 \/ status = 500))
  \/ (exists (d : gmap string json) (s : string) (a : audio) (duration : F) (sr : Z)
             (visemes : list (Entry F)),
        get_json = Returns (JObj d)
        /\ d !! "text" = Some (JStr s)
        /\ strip s <> EmptyString
        /\ default (JStr "gtts") (d !! "provider") = JStr "gtts"
        /\ synthesize (strip s) (default (JStr "en") (d !! "language"))
           = Returns (a, duration, sr)
        /\ generate_viseme_sequence (strip s) duration = Ok visemes
        /\ generate_speech synthesize b64encode get_json
           = (SpeechBody (b64encode a) duration visemes sr "mp3" (strip s)
                (default (JStr "en") (d !! "language")) (JStr "gtts"), 200)).
Proof.
  destruct get_json as [data|e]; [|left; eexists _, _; split; [reflexivity|now right]].
  destruct data as [|b|n|x|s|l|d].
  1-6: left; unfold generate_speech, generate_speech_try; cbn [and_then truthy];
       repeat (match goal with
               | |- context [if ?b then _ else _] => destruct b
               end; cbn [negb and_then json_contains json_getitem]);
       eexists _, _; (split; [reflexivity|auto]).
  destruct (d !! "text") as [v|] eqn:Hk.
  - destruct v as [|b|n|x|s|l|d'];
      try (left; unfold generate_speech;
           rewrite (generate_speech_try_text _ _ d _ Hk);
           eexists _, _; split; [reflexivity|auto]).
    rewrite (generate_speech_text _ _ d s Hk).
    case_bool_decide as Es; [left; eexists _, _; split; [reflexivity|auto]|].
    cbv zeta. destruct (json_eq_str _ "gtts") eqn:Ep;
      [|left; eexists _, _; split; [reflexivity|auto]].
    apply json_eq_str_true in Ep.
    destruct (synthesize _ _) as [[[a dur] sr]|e] eqn:E;
      [|left; eexists _, _; split; [reflexivity|auto]].
    right. exists d, s, a, dur, sr. eexists.
    rewrite generate_viseme_sequence_Ok, Ep. repeat split; assumption.
  - left. unfold generate_speech. rewrite generate_speech_try_no_text by assumption.
    eexists _, _; split; [reflexivity|auto].
Qed.
End Cases.

(** X14. For a body whose [text] is a string, the answer is 400, [Empty
    text input], exactly when the text is empty or whitespace only. *)
Theorem blank_text_iff {F : Type} `{Arith F} {audio : Type}
    (synthesize : string -> json -> outcome (audio * F * Z))
    (b64encode : audio -> string) (d : gmap string json) (s : string) :
  d !! "text" = Some (JStr s) ->
  generate_speech synthesize b64encode (Returns (JObj d))
    = (ErrorBody (Fixed "Empty text input"), 400)
  <-> Forall (fun c => isspace c = true) (list_ascii_of_string s).
Proof.
  intros Hk. rewrite <- strip_empty_iff, (generate_speech_text _ _ d s Hk).
  case_bool_decide as Es; [tauto|]. cbv zeta. split; [|contradiction].
  destruct (json_eq_str _ "gtts"); [|discriminate].
  destruct (synthesize _ _) as [[[a dur] sr]|e]; [|discriminate].
  rewrite generate_viseme_sequence_Ok. discriminate.
Qed.

Lemma blank_text_iff_witness :
  generate_speech (fun _ _ => Returns (tt, 1.0%float, 22050)) (fun _ => "AA==")
    (Returns (JObj {[ "text" := JStr "   " ]}))
  = (ErrorBody (Fixed "Empty text input"), 400).
Proof.
  apply (blank_text_iff _ _ {[ "text" := JStr "   " ]} "   "); [reflexivity|].
  repeat constructor.
Defined.

(** X15. A [provider] that is present and is not the string ['gtts'], the
    value [null] included, is answered 400, [Unsupported provider], once the
    text has passed; gTTS is not reached. *)
Theorem unsupported_provider {F : Type} `{Arith F} {audio : Type}
    (synthesize : string -> json -> outcome (audio * F * Z))
    (b64encode : audio -> string) (d : gmap string json) (s : string)
    (provider : json) :
  d !! "text" = Some (JStr s) ->
  strip s <> EmptyString ->
  d !! "provider" = Some provider ->
  provider <> JStr "gtts" ->
  generate_speech synthesize b64encode (Returns (JObj d))
  = (ErrorBody (UnsupportedProvider provider), 400).
Proof.
  intros Hk Hs Hp Hne. rewrite (generate_speech_text _ _ d s Hk).
  rewrite bool_decide_eq_false_2 by assumption. cbv zeta.
  rewrite Hp. simpl default. now rewrite json_eq_str_false.
Qed.

Lemma unsupported_provider_witness :
  generate_speech (fun _ _ => Returns (tt, 1.0%float, 22050)) (fun _ => "AA==")
    (Returns (JObj {[ "text" := JStr "hi"; "provider" := JNull ]}))
  = (ErrorBody (UnsupportedProvider JNull), 400).
Proof.
  apply (unsupported_provider _ _ {[ "text" := JStr "hi"; "provider" := JNull ]}
           "hi" JNull); try reflexivity; discriminate.
Defined.

(** X16. When gTTS or librosa raises on a checked request, the answer is
    500 with that exception. *)
Theorem synthesizer_failure {F : Type} `{Arith F} {audio : Type}
    (synthesize : string -> json -> outcome (audio * F * Z))
    (b64encode : audio -> string) (d : gmap string json) (s : string)
    (e : exception) :
  d !! "text" = Some (JStr s) ->
  strip s <> EmptyString ->
  d !! "provider" = None \/ d !! "provider" = Some (JStr "gtts") ->
  synthesize (strip s) (default (JStr "en") (d !! "language")) = Raises e ->
  generate_speech synthesize b64encode (Returns (JObj d))
  = (ErrorBody (OfException e), 500).
Proof.
  intros Hk Hs Hp E. rewrite (generate_speech_text _ _ d s Hk).
  rewrite bool_decide_eq_false_2 by assumption. cbv zeta.
  replace (json_eq_str (default (JStr "gtts") (d !! "provider")) "gtts") with true
    by (destruct Hp as [->| ->]; reflexivity).
  now rewrite E.
Qed.

Lemma synthesizer_failure_witness :
  generate_speech (F := float) (audio := unit)
    (fun _ _ => Raises (External "offline")) (fun _ => "AA==")
    (Returns (JObj {[ "text" := JStr " hi " ]}))
  = (ErrorBody (OfException (External "offline")), 500).
Proof.
  apply (synthesizer_failure _ _ {[ "text" := JStr " hi " ]} " hi ");
    try reflexivity; [discriminate|now left].
Defined.

(** X17. The route asks gTTS for nothing but a text that is not empty and
    has no whitespace at either end: two synthesizers that agree on such
    texts give the same answer to every request. *)
Theorem synthesizer_asked_for_stripped_text {F : Type} `{Arith F} {audio : Type}
    (synthesize1 synthesize2 : string -> json -> outcome (audio * F * Z))
    (b64encode : audio -> string) :
  (forall (text : string) (language : json),
     text <> EmptyString -> strip text = text ->
     synthesize1 text language = synthesize2 text language) ->
  forall get_json : outcome json,
    generate_speech synthesize1 b64encode get_json
    = generate_speech synthesize2 b64encode get_json.
Proof.
  intros Hagree [data|e]; [|reflexivity].
  destruct data as [|b|n|x|s|l|d].
  1-6: unfold generate_speech, generate_speech_try; cbn [and_then truthy];
       repeat (match goal with
               | |- context [if ?b then _ else _] => destruct b
               end; cbn [negb and_then json_contains json_getitem]);
       reflexivity.
  destruct (d !! "text") as [v|] eqn:Hk.
  - destruct v as [|b|n|x|s|l|d'];
      try (unfold generate_speech;
           rewrite !(generate_speech_try_text _ _ d _ Hk); reflexivity).
    rewrite !(generate_speech_text _ _ d s Hk).
    case_bool_decide as Es; [reflexivity|]. cbv zeta.
    destruct (json_eq_str _ "gtts"); [|reflexivity].
    now rewrite Hagree by (assumption || apply strip_idem).
  - unfold generate_speech. now rewrite !generate_speech_try_no_text by assumption.
Qed.

Lemma synthesizer_asked_for_stripped_text_witness :
  generate_speech
    (fun text _ => if bool_decide (text = " hi ") then Raises (External "never asked")
                   else Returns (tt, 1.0%float, 22050))
    (fun _ => "AA==") (Returns (JObj {[ "text" := JStr " hi " ]}))
  = generate_speech (fun _ _ => Returns (tt, 1.0%float, 22050))
      (fun _ => "AA==") (Returns (JObj {[ "text" := JStr " hi " ]})).
Proof.
  apply synthesizer_asked_for_stripped_text.
  intros text language _ Hstrip.
  case_bool_decide as E; [|reflexivity]. subst text. discriminate Hstrip.
Defined.

Lemma stripped_text_has_word (text : string) :
  text <> EmptyString -> strip text = text -> split (lower text) <> [].
Proof.
  intros Hne Hstrip Hsplit. apply no_word_iff, strip_empty_iff in Hsplit. congruence.
Qed.

Lemma generate_viseme_sequence_nonempty {F : Type} `{Arith F}
    (text : string) (D : F) (es : list (Entry F)) :
  split (lower text) <> [] ->
  generate_viseme_sequence text D = Ok es -> es <> [].
Proof.
  intros Hw. rewrite generate_viseme_sequence_Ok. intros [= <-] Hnil.
  apply (f_equal (map viseme_id)) in Hnil. rewrite lay_words_ids in Hnil.
  destruct (split (lower text)) as [|w words]; [congruence|].
  simpl in Hnil. pose proof (visemes_of_nonempty w).
  destruct (visemes_of w); [congruence|discriminate].
Qed.

(** X18. What an answer 200 holds. The body of the request is an object
    whose [text] is a string, and the text of the answer is that string
    stripped, which is not empty; the language is the [language] of the
    request, ['en'] when it has none; the provider of the request, ['gtts']
    when it has none, is ['gtts'], and so is that of the answer; the format
    is [mp3]; the audio, the duration and the sample rate are those gTTS and
    librosa gave for that text and language; and the visemes are the
    timeline of that text over that duration, which has at least one
    entry. *)
Theorem answer_200 {F : Type} `{Arith F} {audio : Type}
    (synthesize : string -> json -> outcome (audio * F * Z))
    (b64encode : audio -> string) (get_json : outcome json)
    (audio_data : string) (duration : F) (visemes : list (Entry F))
    (sample_rate : Z) (format text : string) (language provider : json) :
  generate_speech synthesize b64encode get_json
  = (SpeechBody audio_data duration visemes sample_rate format text
       language provider, 200) ->
  (exists (d : gmap string json) (s : string),
     get_json = Returns (JObj d)
     /\ d !! "text" = Some (JStr s)
     /\ text = strip s
     /\ language = default (JStr "en") (d !! "language")
     /\ default (JStr "gtts") (d !! "provider") = JStr "gtts")
  /\ text <> EmptyString
  /\ strip text = text
  /\ format = "mp3"
  /\ provider = JStr "gtts"
  /\ (exists a : audio,
        synthesize text language = Returns (a, duration, sample_rate)
        /\ audio_data = b64encode a)
  /\ generate_viseme_sequence text duration = Ok visemes
  /\ visemes <> [].
Proof.
  intros Hanswer.
  destruct (generate_speech_cases synthesize b64encode get_json)
    as [(err & status & E & _)
       |(d & s & a & dur & sr & vs & Hreq & Htext & Hs & Hprov & Hsyn & Hvs & E)];
    rewrite E in Hanswer; [discriminate|].
  injection Hanswer as <- <- <- <- <- <- <- <-.
  assert (Hstrip : strip (strip s) = strip s) by apply strip_idem.
  split; [exists d, s; repeat split; assumption|].
  repeat split; try assumption; try reflexivity.
  - exists a. split; [assumption|reflexivity].
  - eapply generate_viseme_sequence_nonempty; [|eassumption].
    now apply stripped_text_has_word.
Qed.

Lemma answer_200_witness :
  (exists (d : gmap string json) (s : string),
     Returns (JObj {[ "text" := JStr " hi " ]}) = Returns (JObj d)
     /\ d !! "text" = Some (JStr s)
     /\ "hi" = strip s)
  /\ generate_viseme_sequence "hi" 1.0%float
     = Ok [mkEntry 7 0.0%float 0.5%float; mkEntry 11 0.5%float 0.5%float]
  /\ strip "hi" = "hi".
Proof.
  destruct (answer_200 (fun _ _ => Returns (tt, 1.0%float, 22050)) (fun _ => "AA==")
              (Returns (JObj {[ "text" := JStr " hi " ]}))
              "AA==" 1.0%float
              [mkEntry 7 0.0%float 0.5%float; mkEntry 11 0.5%float 0.5%float]
              22050 "mp3" "hi" (JStr "en") (JStr "gtts"))
    as ((d & s & Hreq & Htext & Hs & _ & _) & _ & Hstrip & _ & _ & _ & Hvs & _).
  - vm_compute. reflexivity.
  - split; [exists d, s; split; [exact Hreq|split; [exact Htext|exact Hs]]|].
    split; assumption.
Defined.

(** ** Every word gets the same time *)

Section Shares.
Context {F : Type} `{Arith F}.

Lemma lay_words_app (tpw : F) (l1 l2 : list string) (st : list (Entry F) * F) :
  lay_words tpw st (l1 ++ l2) = lay_words tpw (lay_words tpw st l1) l2.
Proof. unfold lay_words. apply fold_left_app. Qed.

Lemma append_viseme_extends (d : F) (ids : list Z) :
  forall st, exists tail : list (Entry F),
    fst (fold_left (append_viseme d) ids st) = fst st ++ tail
    /\ (ids <> [] -> exists e, head tail = Some e /\ time_offset e = snd st).
Proof.
  induction ids as [|id ids IH]; intros [es t]; simpl.
  - exists []. split; [now rewrite app_nil_r|congruence].
  - destruct (IH (es ++ [mkEntry id t d], fadd t d)) as (tail & -> & _). simpl.
    exists (mkEntry id t d :: tail). split; [now rewrite <- app_assoc|].
    intros _. eexists. split; reflexivity.
Qed.

Lemma lay_words_extends (tpw : F) (words : list string) :
  forall st, exists tail : list (Entry F),
    fst (lay_words tpw st words) = fst st ++ tail
    /\ (words <> [] -> exists e, head tail = Some e /\ time_offset e = snd st).
Proof.
  unfold lay_words. induction words as [|w words IH]; intros st; simpl.
  - exists []. split; [now rewrite app_nil_r|congruence].
  - destruct (IH (lay_word tpw st w)) as (tail & -> & _).
    destruct (append_viseme_extends (viseme_duration_of tpw w) (visemes_of w) st)
      as (tail0 & E0 & Hhead).
    unfold lay_word at 1. rewrite E0.
    exists (tail0 ++ tail). split; [now rewrite <- app_assoc|].
    intros _. destruct (Hhead (visemes_of_nonempty w)) as (e & He & Ht).
    exists e. split; [|assumption].
    destruct tail0; [discriminate|]. exact He.
Qed.

Lemma lay_words_length (tpw : F) (words : list string) :
  Forall (fun w => w <> EmptyString) words ->
  length (fst (lay_words tpw ([], fzero) words)) = length (concat (map chars words)).
Proof.
  intros Hw. rewrite <- (length_map viseme_id), lay_words_ids. simpl.
  rewrite visemes_of_words by assumption. rewrite length_map.
  clear Hw. induction words as [|w words IH]; simpl; [reflexivity|].
  rewrite !length_app, IH, chars_map, length_map. reflexivity.
Qed.
End Shares.

Lemma entry_count_app (l1 l2 : list string) :
  entry_count (l1 ++ l2) = entry_count l1 + entry_count l2.
Proof.
  induction l1 as [|w l1 IH]; [reflexivity|].
  change ((w :: l1) ++ l2) with (w :: (l1 ++ l2)). rewrite !entry_count_cons, IH. lia.
Qed.

(** The time after some words, in binary64: the time of one word times
    their number, within [(m + 1) * 2^-50] of it, relatively, and [4 m]
    units, for their [m] entries. *)
Lemma lay_words_share (tpw : float) (words : list string) :
  finite_nonneg tpw ->
  len words * ulps tpw <= 3 * 2 ^ 2070 ->
  entry_count words <= 2 ^ 49 ->
  finite_nonneg (snd (lay_words tpw ([], 0%float) words))
  /\ 2 ^ 50 * Z.abs (ulps (snd (lay_words tpw ([], 0%float) words)) - len words * ulps tpw)
     <= (entry_count words + 1) * (len words * ulps tpw) + 2 ^ 52 * entry_count words.
Proof.
  intros Ft HNT HK.
  destruct (decide (words = [])) as [->|Hwords]; [split; [exact I|reflexivity]|].
  pose proof (len_pos _ Hwords) as HN. pose proof (Rounding.ulps_nonneg tpw) as HT0.
  destruct (entry_count_each words) as [HNK Heach].
  assert (HTN : ulps tpw <= len words * ulps tpw).
  { rewrite <- (Z.mul_1_l (ulps tpw)) at 1. apply Z.mul_le_mono_nonneg_r; lia. }
  assert (HT : ulps tpw <= 2 ^ 2074) by lia.
  destruct (unrounded_sum_bound tpw words Ft HT) as (Hfin & Hau & Had).
  { eapply Forall_impl; [exact Heach|]. simpl. intros w Hw. lia. }
  pose proof (unrounded_sum_nonneg tpw words) as HA0.
  pose proof (entry_count_nonneg words) as HK0.
  set (B := 2 * (len words * ulps tpw) + 3 * entry_count words).
  assert (HB : unrounded_sum tpw words <= B) by (subst B; lia).
  destruct (lay_words_within_rounding B tpw ltac:(lia) ltac:(subst B; lia) words
              ([], 0%float) 0 0 Hfin ltac:(lia) ltac:(lia)) as (Fs & Hsu & Hsd).
  { split; [exact I|]. cbn [snd]. change (ulps 0) with 0. split; lia. }
  { lia. }
  { lia. }
  rewrite !Z.add_0_l in *. split; [exact Fs|].
  set (t := ulps (snd (lay_words tpw ([], 0%float) words))) in *.
  assert (HKK : entry_count words * entry_count words <= 2 ^ 49 * entry_count words)
    by (apply Z.mul_le_mono_nonneg_r; lia).
  subst B. rewrite Z.mul_add_distr_l in Hsu, Hsd.
  rewrite !Z.mul_assoc, (Z.mul_comm (entry_count words) 2),
    (Z.mul_comm (entry_count words) 3), <- !Z.mul_assoc in Hsu, Hsd.
  rewrite Z.mul_add_distr_r, Z.mul_1_l.
  assert (HNT0 : 0 <= len words * ulps tpw) by lia.
  set (NT := len words * ulps tpw) in *.
  set (KNT := entry_count words * NT) in *.
  set (KK := entry_count words * entry_count words) in *.
  set (A := unrounded_sum tpw words) in *. set (K := entry_count words) in *.
  clearbody KNT KK NT A K t.
  clear - Hsu Hsd Hau Had HKK HK HK0 HNT0.
  lia.
Qed.

(** X19. In binary64 the words share the duration equally, whatever their
    lengths, up to rounding. The first entry of the word of index [k] is
    the entry after all the characters of the words before it, [m] of them.
    For [0 <= D <= 2^996] and a timeline of at most [2^49] entries it
    starts within [(m + 1) * 2^-50 * k * T + 4 * m * 2^-1074] of [k * T],
    where [T] is the time of one word, the float [D / len(words)]; and [T]
    times the number of words is within [2^-52 * D], or that number of
    units of [2^-1074], of [D]. *)
Theorem word_starts (text : string) (D : float) (k : nat) (w : string) :
  (0 <=? D)%float = true ->
  (D <=? 0x1p996)%float = true ->
  split (lower text) !! k = Some w ->
  exists (es : list (Entry float)) (e : Entry float),
    generate_viseme_sequence text D = Ok es
    /\ es !! length (concat (map chars (take k (split (lower text))))) = Some e
    /\ (len es <= 2 ^ 49 ->
        finite_nonneg (time_offset e)
        /\ 2 ^ 50 * Z.abs (ulps (time_offset e)
                           - Z.of_nat k * ulps (time_per_word_of text D))
           <= (len (concat (map chars (take k (split (lower text))))) + 1)
              * (Z.of_nat k * ulps (time_per_word_of text D))
              + 2 ^ 52 * len (concat (map chars (take k (split (lower text)))))
        /\ 2 ^ 52 * Z.abs (len (split (lower text)) * ulps (time_per_word_of text D)
                           - ulps D)
           <= ulps D + 2 ^ 52 * len (split (lower text))).
Proof.
  intros H0 Hmax Hk. set (words := split (lower text)) in *.
  assert (Hwords : Forall (fun w => w <> EmptyString) words).
  { eapply Forall_impl; [apply (split_from_words (lower text) EmptyString); constructor|].
    simpl. tauto. }
  assert (Hlen : 0 < len words).
  { apply len_pos. intros E. rewrite E in Hk. discriminate. }
  pose proof (take_drop_middle words k w Hk) as Hsplit.
  set (tpw := time_per_word_of text D).
  destruct (lay_words_extends tpw (w :: drop (S k) words)
              (lay_words tpw ([], 0%float) (take k words)))
    as (tail & Htail & Hhead).
  destruct Hhead as (e & He & Ht); [discriminate|].
  exists (fst (lay_words tpw ([], 0%float) words)), e.
  split; [exact (generate_viseme_sequence_Ok text D)|].
  assert (Hall : lay_words tpw ([], 0%float) words
                 = lay_words tpw (lay_words tpw ([], 0%float) (take k words))
                     (w :: drop (S k) words)).
  { rewrite <- lay_words_app, Hsplit. reflexivity. }
  split.
  - rewrite Hall, Htail.
    rewrite <- (lay_words_length tpw) by (apply Forall_take; assumption).
    rewrite lookup_app_r by apply Nat.le_refl. rewrite Nat.sub_diag.
    destruct tail; [discriminate|]. exact He.
  - intros HK. rewrite lay_words_count in HK. change (len []) with 0 in HK.
    rewrite Z.add_0_l in HK.
    (* the entries of the words before *)
    assert (Hm : len (concat (map chars (take k words))) = entry_count (take k words)).
    { unfold len at 1. rewrite <- (lay_words_length tpw) by (apply Forall_take; assumption).
      fold (len (fst (lay_words tpw ([], fzero) (take k words)))).
      rewrite lay_words_count. reflexivity. }
    assert (Hpre : entry_count (take k words) <= entry_count words).
    { rewrite <- Hsplit at 2. rewrite entry_count_app.
      pose proof (entry_count_nonneg (w :: drop (S k) words)). lia. }
    assert (Htake : len (take k words) = Z.of_nat k).
    { unfold len. rewrite length_take. apply lookup_lt_Some in Hk. lia. }
    assert (HkN : Z.of_nat k <= len words).
    { apply lookup_lt_Some in Hk. unfold len. lia. }
    destruct (entry_count_each words) as [HNK _].
    (* the time of a word *)
    assert (FD : finite_nonneg D)
      by (apply (Rounding.between_finite D 0x1p996); [assumption..|exact I]).
    assert (HD : ulps D <= 2 ^ 2070).
    { change (2 ^ 2070) with (ulps 0x1p996).
      apply Rounding.leb_ulps; [exact FD|exact I|exact Hmax]. }
    pose proof (Rounding.ulps_nonneg D) as HD0.
    assert (Htpw : tpw = (D / float_of_int (len words))%float).
    { unfold tpw, time_per_word_of. fold words. rewrite Z.max_l by lia. reflexivity. }
    destruct (Rounding.div_ulps D (len words) FD ltac:(lia) ltac:(lia)) as (Ft & Htu & Htd).
    rewrite <- Htpw in Ft, Htu, Htd. pose proof (Rounding.ulps_nonneg tpw) as HT0.
    assert (HkT : Z.of_nat k * ulps tpw <= len words * ulps tpw)
      by (apply Z.mul_le_mono_nonneg_r; lia).
    destruct (lay_words_share tpw (take k words) Ft) as [Hfin Hshare].
    { rewrite Htake. lia. }
    { lia. }
    rewrite Ht, Hm. rewrite Htake in Hshare.
    split; [exact Hfin|]. split; [exact Hshare|].
    clear - Htu Htd. lia.
Qed.

Lemma word_starts_witness :
  exists (es : list (Entry float)) (e : Entry float),
    generate_viseme_sequence "a hello yo" 3%float = Ok es
    /\ es !! 6%nat = Some e
    /\ finite_nonneg (time_offset e)
    /\ 2 ^ 50 * Z.abs (ulps (time_offset e) - 2 * ulps 1) <= 7 * (2 * ulps 1) + 2 ^ 52 * 6
    /\ (time_offset e <? 2)%float = true.
Proof.
  destruct (word_starts "a hello yo" 3%float 2 "yo") as (es & e & Hes & He & Hb);
    [reflexivity|reflexivity|reflexivity|].
  exists es, e. split; [exact Hes|]. split; [exact He|].
  destruct Hb as (Hfin & Hstart & _).
  { vm_compute in Hes. injection Hes as <-. vm_compute. discriminate. }
  split; [exact Hfin|]. split; [exact Hstart|].
  vm_compute in Hes. injection Hes as <-. vm_compute in He. injection He as <-.
  reflexivity.
Defined.
